(** * A recursive-descent parser for regular expressions: model and properties

    Shallow embedding of [RE_parser.c].

    Grammar, as the source file states it ('#' is the empty content):
<<
      RE  ::= # | # RE' | symbol | symbol RE' | ( RE ) | ( RE ) RE'
      RE' ::= + RE | + RE RE' | RE | RE RE' | * | * RE'
>>
    Modelling conventions.
    - [reg_expr] is a Rocq [string] holding the bytes of the C string;
      reading at its end yields the NUL terminator ([char_at]), and a NUL
      character inside the string terminates it as it does in C ([strlen],
      [c_string]).
    - A [Node] is a value: its label and its [MAX_CHILDS] child slots, each
      slot holding [None] (a NULL pointer) or the child's subtree.  The tree
      is strictly owned (no sharing), so a pointer to an attached child is
      modelled by the slot it was stored in: the functions work on the local
      node and the result is written back to that slot ([write_back]).
    - A node obtained from [node_new] for which [node_add_child] finds no
      empty slot is attached nowhere; such nodes are collected in the [lost]
      component of the state instead of being forgotten.
    - [int] cursors are [nat]: they only grow by one per matched character
      and never pass the terminator ([RE_total_from]).
    - [bool f(..., int *p_idx_out, ...)] is modelled by an [option nat]:
      [Some i] when the function returns true, having stored [i] through
      [p_idx_out]; [None] when it returns false.  No function stores through
      [p_idx_out] on a path that returns false, and no caller reads a
      cursor that a failed call was supposed to produce.
    - The mutual recursion of [RE] and [RE_prime] is bounded by a [fuel]
      argument, the depth of the calls; [RE_total_from] shows which fuel
      suffices, [RE_fuel_mono] that the result does not depend on it. *)

From Stdlib Require Import String Ascii List ZArith Lia Bool Arith DecimalString.
From stdpp Require Import base list.
Import ListNotations.

Local Open Scope string_scope.
Local Open Scope list_scope.
Local Open Scope nat_scope.

(** ** Parse tree functions and data structures *)

Definition MAX_CHILDS : nat := 4.

(** [struct Node { char content[MAX_CONTENT_LEN]; Node * childs[MAX_CHILDS]; }] *)
#[warnings="-register-all"] Inductive Node : Type :=
  mkNode (content : string) (childs : list (option Node)).

Definition content (p : Node) : string :=
  match p with mkNode s _ => s end.

Definition childs (p : Node) : list (option Node) :=
  match p with mkNode _ cs => cs end.

(** [p_node->childs[i]]; a slot outside the list reads as NULL. *)
Definition child_at (p : Node) (i : nat) : option Node :=
  match childs p !! i with
  | Some c => c
  | None => None
  end.

(** [p_node->childs[i] = c]. *)
Definition set_child (p : Node) (i : nat) (c : option Node) : Node :=
  mkNode (content p) (<[i := c]> (childs p)).

(** [malloc(sizeof(Node))]: storage whose fields [node_init] overwrites. *)
Definition node_new : Node := mkNode "" [].

Definition node_init (p_node : Node) (s : string) : Node :=
  mkNode s (replicate MAX_CHILDS None).

(** The loop of [node_add_child], entered at index [i] with [k] iterations
    left.  The second component is the slot that received the child, or
    [None] when the loop ran off the end without storing it. *)
Fixpoint node_add_child_from (k i : nat) (p_node p_child : Node)
  : Node * option nat :=
  match k with
  | O => (p_node, None)
  | S k' =>
      match child_at p_node i with
      | None => (set_child p_node i (Some p_child), Some i)
      | Some _ => node_add_child_from k' (S i) p_node p_child
      end
  end.

Definition node_add_child (p_node p_child : Node) : Node * option nat :=
  node_add_child_from MAX_CHILDS 0 p_node p_child.

(** [node_free]: the nodes released, in the order of the calls to [free]
    (children first, slot by slot, then the node itself). *)
Fixpoint node_free (p_node : Node) : list Node :=
  match p_node with
  | mkNode _ cs =>
      (fix free_slots (l : list (option Node)) : list Node :=
         match l with
         | [] => []
         | None :: l' => free_slots l'
         | Some c :: l' => node_free c ++ free_slots l'
         end) cs ++ [p_node]
  end.

(** The loop of [node_free_last_childs], about to run the iteration for
    index [k - 1].  Returns the node and the children handed to [node_free],
    in call order. *)
Fixpoint node_free_last_childs_from (k : nat) (p_node : Node) (n : Z)
  : Node * list Node :=
  match k with
  | O => (p_node, [])
  | S i =>
      match child_at p_node i with
      | Some c =>
          let p_node' := set_child p_node i None in
          let n' := (n - 1)%Z in
          if (n' =? 0)%Z then (p_node', [c])
          else
            let (q, freed) := node_free_last_childs_from i p_node' n' in
            (q, c :: freed)
      | None =>
          if (n =? 0)%Z then (p_node, [])
          else node_free_last_childs_from i p_node n
      end
  end.

Definition node_free_last_childs (p_node : Node) (n : Z) : Node * list Node :=
  node_free_last_childs_from MAX_CHILDS p_node n.

(** The attached children of a slot array, lowest index first. *)
Definition attached (cs : list (option Node)) : list Node :=
  omap id cs.

(** The loop of [node_free_childs], entered at index [i] with [k] iterations
    left. *)
Fixpoint node_free_childs_from (k i : nat) (p_node : Node) : Node * list Node :=
  match k with
  | O => (p_node, [])
  | S k' =>
      let freed := match child_at p_node i with Some c => [c] | None => [] end in
      let (q, rest) := node_free_childs_from k' (S i) (set_child p_node i None) in
      (q, freed ++ rest)
  end.

Definition node_free_childs (p_node : Node) : Node * list Node :=
  node_free_childs_from MAX_CHILDS 0 p_node.

(** ** Input text *)

Definition NUL : ascii := Ascii.zero.

(** [reg_expr[i]]. *)
Definition char_at (reg_expr : string) (i : nat) : ascii :=
  match String.get i reg_expr with
  | Some c => c
  | None => NUL
  end.

(** Index of the terminating NUL. *)
Fixpoint strlen (s : string) : nat :=
  match s with
  | EmptyString => 0
  | String c s' => if Ascii.eqb c NUL then 0 else S (strlen s')
  end.

Fixpoint take (n : nat) (s : string) : string :=
  match n, s with
  | S n', String c s' => String c (take n' s')
  | _, _ => EmptyString
  end.

Fixpoint drop (n : nat) (s : string) : string :=
  match n, s with
  | S n', String _ s' => drop n' s'
  | _, _ => s
  end.

(** The C string that [reg_expr] denotes: the characters before the
    terminator. *)
Definition c_string (reg_expr : string) : string :=
  take (strlen reg_expr) reg_expr.

(** ** State threaded through the recognizers *)

(** The node the function was given, and the nodes that could not be
    attached so far. *)
Definition St : Type := Node * list Node.

(** Outcome of a call: [Some idx_out] for true, [None] for false, with the
    state the call leaves. *)
Definition Result : Type := option nat * St.

(** A child was created and handed to [node_add_child]. *)
Definition attach (st : St) (p_child : Node) : St * option nat :=
  let (p_node, lost) := st in
  let (p_node', slot) := node_add_child p_node p_child in
  match slot with
  | Some i => ((p_node', lost), Some i)
  | None => ((p_node', lost ++ [p_child]), None)
  end.

(** ** Terminals *)

Definition epsilon (reg_expr : string) (idx_in : nat) (st : St) : Result :=
  let i := idx_in in
  if Ascii.eqb (char_at reg_expr i) "#" then
    let p_node_eps := node_init node_new "#" in
    (Some (i + 1), fst (attach st p_node_eps))
  else (None, st).

Definition is_symbol_char (c : ascii) : bool :=
  let v := nat_of_ascii c in
  Ascii.eqb c "_"
  || ((48 <=? v) && (v <=? 57))
  || ((65 <=? v) && (v <=? 90))
  || ((97 <=? v) && (v <=? 122)).

Definition symbol (reg_expr : string) (idx_in : nat) (st : St) : Result :=
  let i := idx_in in
  if is_symbol_char (char_at reg_expr i) then
    let s := String (char_at reg_expr i) EmptyString in
    let p_node_symbol := node_init node_new s in
    (Some (i + 1), fst (attach st p_node_symbol))
  else (None, st).

Definition lpar (reg_expr : string) (idx_in : nat) (st : St) : Result :=
  let i := idx_in in
  if 40 =? nat_of_ascii (char_at reg_expr i) then
    let p_node_lpar := node_init node_new "(" in
    (Some (i + 1), fst (attach st p_node_lpar))
  else (None, st).

Definition rpar (reg_expr : string) (idx_in : nat) (st : St) : Result :=
  let i := idx_in in
  if 41 =? nat_of_ascii (char_at reg_expr i) then
    let p_node_rpar := node_init node_new ")" in
    (Some (i + 1), fst (attach st p_node_rpar))
  else (None, st).

Definition star (reg_expr : string) (idx_in : nat) (st : St) : Result :=
  let i := idx_in in
  if 42 =? nat_of_ascii (char_at reg_expr i) then
    let p_node_star := node_init node_new "*" in
    (Some (i + 1), fst (attach st p_node_star))
  else (None, st).

Definition plus (reg_expr : string) (idx_in : nat) (st : St) : Result :=
  let i := idx_in in
  if 43 =? nat_of_ascii (char_at reg_expr i) then
    let p_node_plus := node_init node_new "+" in
    (Some (i + 1), fst (attach st p_node_plus))
  else (None, st).

(** ** Variables *)

(** What one [if]-block of a production does to the control flow of the
    function that contains it. *)
Inductive Flow : Type :=
| Return (idx_out : nat) (st : St)   (* [*p_idx_out] is set; [return true] *)
| Next (st : St)                     (* falls through to the next statement *)
| OutOfFuel.

(** The blocks of a production, one after the other. *)
Fixpoint in_order (alts : list (St -> Flow)) (st : St) : Flow :=
  match alts with
  | [] => Next st
  | alt :: rest =>
      match alt st with
      | Next st' => in_order rest st'
      | r => r
      end
  end.

(** [node_free_last_childs] on the node of the state. *)
Definition rollback (st : St) (n : Z) : St :=
  (fst (node_free_last_childs (fst st) n), snd st).

(** The local node [p_child] was attached to [p_node] in [slot] (if any):
    what was done to it since is visible through that slot.  A node that
    was attached nowhere stays allocated and counts as lost. *)
Definition write_back (p_node : Node) (slot : option nat) (st_child : St) : St :=
  match slot with
  | Some i => (set_child p_node i (Some (fst st_child)), snd st_child)
  | None => (p_node, snd st_child ++ [fst st_child])
  end.

(** A production: create the node of the variable, attach it to the
    caller's node, run the alternatives on it; when all have failed, drop
    the last child of the caller's node. *)
Definition production (label : string) (alts : list (St -> Flow)) (st : St)
  : option Result :=
  let (p_node, lost) := st in
  let p_var := node_init node_new label in
  let (p_node, slot) := node_add_child p_node p_var in
  match in_order alts (p_var, lost) with
  | Return idx_out st_var => Some (Some idx_out, write_back p_node slot st_var)
  | Next st_var => Some (None, rollback (write_back p_node slot st_var) 1)
  | OutOfFuel => None
  end.

Section Alternatives.

Variable reg_expr : string.
(** The recursive calls. *)
Variables RE_rec RE_prime_rec : nat -> St -> option Result.

(** RE' -> + RE RE' *)
Definition RE_prime_plus_RE_RE_prime (idx_in : nat) (p_RE_prime : St) : Flow :=
  match plus reg_expr idx_in p_RE_prime with
  | (Some idx_tmp1, p_RE_prime) =>
      match RE_rec idx_tmp1 p_RE_prime with
      | Some (Some idx_tmp2, p_RE_prime) =>
          match RE_prime_rec idx_tmp2 p_RE_prime with
          | Some (Some idx_out, p_RE_prime) => Return idx_out p_RE_prime
          | Some (None, p_RE_prime) => Next (rollback p_RE_prime 2)
          | None => OutOfFuel
          end
      | Some (None, p_RE_prime) => Next (rollback p_RE_prime 1)
      | None => OutOfFuel
      end
  | (None, p_RE_prime) => Next p_RE_prime
  end.

(** RE' -> + RE *)
Definition RE_prime_plus_RE (idx_in : nat) (p_RE_prime : St) : Flow :=
  match plus reg_expr idx_in p_RE_prime with
  | (Some idx_tmp1, p_RE_prime) =>
      match RE_rec idx_tmp1 p_RE_prime with
      | Some (Some idx_out, p_RE_prime) => Return idx_out p_RE_prime
      | Some (None, p_RE_prime) => Next (rollback p_RE_prime 1)
      | None => OutOfFuel
      end
  | (None, p_RE_prime) => Next p_RE_prime
  end.

(** RE' -> * RE' *)
Definition RE_prime_star_RE_prime (idx_in : nat) (p_RE_prime : St) : Flow :=
  match star reg_expr idx_in p_RE_prime with
  | (Some idx_tmp1, p_RE_prime) =>
      match RE_prime_rec idx_tmp1 p_RE_prime with
      | Some (Some idx_out, p_RE_prime) => Return idx_out p_RE_prime
      | Some (None, p_RE_prime) => Next (rollback p_RE_prime 1)
      | None => OutOfFuel
      end
  | (None, p_RE_prime) => Next p_RE_prime
  end.

(** RE' -> RE RE' *)
Definition RE_prime_RE_RE_prime (idx_in : nat) (p_RE_prime : St) : Flow :=
  match RE_rec idx_in p_RE_prime with
  | Some (Some idx_tmp1, p_RE_prime) =>
      match RE_prime_rec idx_tmp1 p_RE_prime with
      | Some (Some idx_out, p_RE_prime) => Return idx_out p_RE_prime
      | Some (None, p_RE_prime) => Next (rollback p_RE_prime 1)
      | None => OutOfFuel
      end
  | Some (None, p_RE_prime) => Next p_RE_prime
  | None => OutOfFuel
  end.

(** RE' -> RE *)
Definition RE_prime_RE (idx_in : nat) (p_RE_prime : St) : Flow :=
  match RE_rec idx_in p_RE_prime with
  | Some (Some idx_out, p_RE_prime) => Return idx_out p_RE_prime
  | Some (None, p_RE_prime) => Next p_RE_prime
  | None => OutOfFuel
  end.

(** RE' -> * *)
Definition RE_prime_star (idx_in : nat) (p_RE_prime : St) : Flow :=
  match star reg_expr idx_in p_RE_prime with
  | (Some idx_out, p_RE_prime) => Return idx_out p_RE_prime
  | (None, p_RE_prime) => Next p_RE_prime
  end.

(** The alternatives of RE', in the order of the source. *)
Definition RE_prime_alternatives (idx_in : nat) : list (St -> Flow) :=
  [ RE_prime_plus_RE_RE_prime idx_in;
    RE_prime_plus_RE idx_in;
    RE_prime_star_RE_prime idx_in;
    RE_prime_RE_RE_prime idx_in;
    RE_prime_RE idx_in;
    RE_prime_star idx_in ].

Definition RE_prime_body (idx_in : nat) (st : St) : option Result :=
  production "RE'" (RE_prime_alternatives idx_in) st.

(** RE -> # RE' *)
Definition RE_epsilon_RE_prime (idx_in : nat) (p_RE : St) : Flow :=
  match epsilon reg_expr idx_in p_RE with
  | (Some idx_tmp1, p_RE) =>
      match RE_prime_rec idx_tmp1 p_RE with
      | Some (Some idx_out, p_RE) => Return idx_out p_RE
      | Some (None, p_RE) => Next (rollback p_RE 1)
      | None => OutOfFuel
      end
  | (None, p_RE) => Next p_RE
  end.

(** RE -> symbol RE' *)
Definition RE_symbol_RE_prime (idx_in : nat) (p_RE : St) : Flow :=
  match symbol reg_expr idx_in p_RE with
  | (Some idx_tmp1, p_RE) =>
      match RE_prime_rec idx_tmp1 p_RE with
      | Some (Some idx_out, p_RE) => Return idx_out p_RE
      | Some (None, p_RE) => Next (rollback p_RE 1)
      | None => OutOfFuel
      end
  | (None, p_RE) => Next p_RE
  end.

(** RE -> ( RE ) RE' *)
Definition RE_lpar_RE_rpar_RE_prime (idx_in : nat) (p_RE : St) : Flow :=
  match lpar reg_expr idx_in p_RE with
  | (Some idx_tmp1, p_RE) =>
      match RE_rec idx_tmp1 p_RE with
      | Some (Some idx_tmp2, p_RE) =>
          match rpar reg_expr idx_tmp2 p_RE with
          | (Some idx_tmp3, p_RE) =>
              match RE_prime_rec idx_tmp3 p_RE with
              | Some (Some idx_out, p_RE) => Return idx_out p_RE
              | Some (None, p_RE) => Next (rollback p_RE 3)
              | None => OutOfFuel
              end
          | (None, p_RE) => Next (rollback p_RE 2)
          end
      | Some (None, p_RE) => Next (rollback p_RE 1)
      | None => OutOfFuel
      end
  | (None, p_RE) => Next p_RE
  end.

(** RE -> ( RE ) *)
Definition RE_lpar_RE_rpar (idx_in : nat) (p_RE : St) : Flow :=
  match lpar reg_expr idx_in p_RE with
  | (Some idx_tmp1, p_RE) =>
      match RE_rec idx_tmp1 p_RE with
      | Some (Some idx_tmp2, p_RE) =>
          match rpar reg_expr idx_tmp2 p_RE with
          | (Some idx_out, p_RE) => Return idx_out p_RE
          | (None, p_RE) => Next (rollback p_RE 2)
          end
      | Some (None, p_RE) => Next (rollback p_RE 1)
      | None => OutOfFuel
      end
  | (None, p_RE) => Next p_RE
  end.

(** RE -> # *)
Definition RE_epsilon (idx_in : nat) (p_RE : St) : Flow :=
  match epsilon reg_expr idx_in p_RE with
  | (Some idx_out, p_RE) => Return idx_out p_RE
  | (None, p_RE) => Next p_RE
  end.

(** RE -> symbol *)
Definition RE_symbol (idx_in : nat) (p_RE : St) : Flow :=
  match symbol reg_expr idx_in p_RE with
  | (Some idx_out, p_RE) => Return idx_out p_RE
  | (None, p_RE) => Next p_RE
  end.

(** The alternatives of RE, in the order of the source. *)
Definition RE_alternatives (idx_in : nat) : list (St -> Flow) :=
  [ RE_epsilon_RE_prime idx_in;
    RE_symbol_RE_prime idx_in;
    RE_lpar_RE_rpar_RE_prime idx_in;
    RE_lpar_RE_rpar idx_in;
    RE_epsilon idx_in;
    RE_symbol idx_in ].

Definition RE_body (idx_in : nat) (st : St) : option Result :=
  production "RE" (RE_alternatives idx_in) st.

End Alternatives.

(** The two mutually recursive functions; [fuel] bounds the depth of the
    calls. *)
Fixpoint RE (fuel : nat) (reg_expr : string) (idx_in : nat) (st : St)
  {struct fuel} : option Result :=
  match fuel with
  | O => None
  | S fuel' =>
      RE_body reg_expr (RE fuel' reg_expr) (RE_prime fuel' reg_expr) idx_in st
  end
with RE_prime (fuel : nat) (reg_expr : string) (idx_in : nat) (st : St)
  {struct fuel} : option Result :=
  match fuel with
  | O => None
  | S fuel' =>
      RE_prime_body reg_expr (RE fuel' reg_expr) (RE_prime fuel' reg_expr) idx_in st
  end.

(** [parse]: the result and the caller's node as [parse] leaves it, with the
    nodes that were attached nowhere. *)
Definition parse (fuel : nat) (reg_expr : string) (p_node : Node)
  : option (bool * St) :=
  let start_index := 0 in
  let p_node := node_init p_node "Root" in
  match RE fuel reg_expr start_index (p_node, []) with
  | Some (Some end_index, st) =>
      Some (Ascii.eqb (char_at reg_expr end_index) NUL, st)
  | Some (None, st) => Some (false, st)
  | None => None
  end.

(** ** Specification vocabulary *)

(** A leaf as the terminals create it. *)
Definition leaf (s : string) : Node := node_init node_new s.

(** The slot array whose attached children are [cs], in a contiguous
    prefix. *)
Definition slots (cs : list Node) : list (option Node) :=
  map Some cs ++ replicate (MAX_CHILDS - length cs) None.

(** The children of [p] fill a prefix of its [MAX_CHILDS] slots and at
    least one slot is empty. *)
Definition has_room (p : Node) : Prop :=
  exists cs, length cs < MAX_CHILDS /\ childs p = slots cs.

(** [p] with [t] attached after its children. *)
Definition push (p t : Node) : Node :=
  mkNode (content p) (slots (attached (childs p) ++ [t])).

Ltac room :=
  match goal with
  | |- has_room ?p =>
      exists (attached (childs p)); split; [cbv; lia | reflexivity]
  end.

(** ** Derivation trees *)

(** [tree_RE s i j t]: [t] is the node that [RE] builds when it derives the
    characters [i .. j-1] of [s]; one constructor per alternative. *)
Inductive tree_RE (s : string) : nat -> nat -> Node -> Prop :=
| T_epsilon_RE_prime i j t' :
    char_at s i = "#"%char ->
    tree_RE_prime s (i + 1) j t' ->
    tree_RE s i j (mkNode "RE" [Some (leaf "#"); Some t'; None; None])
| T_symbol_RE_prime i j t' :
    is_symbol_char (char_at s i) = true ->
    tree_RE_prime s (i + 1) j t' ->
    tree_RE s i j
      (mkNode "RE" [Some (leaf (String (char_at s i) "")); Some t'; None; None])
| T_lpar_RE_rpar_RE_prime i j k t t' :
    char_at s i = "("%char ->
    tree_RE s (i + 1) j t ->
    char_at s j = ")"%char ->
    tree_RE_prime s (j + 1) k t' ->
    tree_RE s i k
      (mkNode "RE" [Some (leaf "("); Some t; Some (leaf ")"); Some t'])
| T_lpar_RE_rpar i j t :
    char_at s i = "("%char ->
    tree_RE s (i + 1) j t ->
    char_at s j = ")"%char ->
    tree_RE s i (j + 1)
      (mkNode "RE" [Some (leaf "("); Some t; Some (leaf ")"); None])
| T_epsilon i :
    char_at s i = "#"%char ->
    tree_RE s i (i + 1) (mkNode "RE" [Some (leaf "#"); None; None; None])
| T_symbol i :
    is_symbol_char (char_at s i) = true ->
    tree_RE s i (i + 1)
      (mkNode "RE" [Some (leaf (String (char_at s i) "")); None; None; None])
with tree_RE_prime (s : string) : nat -> nat -> Node -> Prop :=
| T_plus_RE_RE_prime i j k t t' :
    char_at s i = "+"%char ->
    tree_RE s (i + 1) j t ->
    tree_RE_prime s j k t' ->
    tree_RE_prime s i k (mkNode "RE'" [Some (leaf "+"); Some t; Some t'; None])
| T_plus_RE i j t :
    char_at s i = "+"%char ->
    tree_RE s (i + 1) j t ->
    tree_RE_prime s i j (mkNode "RE'" [Some (leaf "+"); Some t; None; None])
| T_star_RE_prime i j t' :
    char_at s i = "*"%char ->
    tree_RE_prime s (i + 1) j t' ->
    tree_RE_prime s i j (mkNode "RE'" [Some (leaf "*"); Some t'; None; None])
| T_RE_RE_prime i j k t t' :
    tree_RE s i j t ->
    tree_RE_prime s j k t' ->
    tree_RE_prime s i k (mkNode "RE'" [Some t; Some t'; None; None])
| T_RE i j t :
    tree_RE s i j t ->
    tree_RE_prime s i j (mkNode "RE'" [Some t; None; None; None])
| T_star i :
    char_at s i = "*"%char ->
    tree_RE_prime s i (i + 1) (mkNode "RE'" [Some (leaf "*"); None; None; None]).

Scheme tree_RE_ind2 := Minimality for tree_RE Sort Prop
  with tree_RE_prime_ind2 := Minimality for tree_RE_prime Sort Prop.
Combined Scheme tree_mutind from tree_RE_ind2, tree_RE_prime_ind2.

(** ** What a call and an alternative guarantee *)

(** A call on a node with room: on failure the state is the one it was
    given; on success one child, a derivation tree, has been attached and
    nothing was lost. *)
Definition call_ok (D : nat -> nat -> Node -> Prop)
  (f : nat -> St -> option Result) : Prop :=
  forall idx p lost,
    has_room p ->
    match f idx (p, lost) with
    | Some (Some idx_out, st') =>
        exists t, st' = (push p t, lost) /\ D idx idx_out t
    | Some (None, st') => st' = (p, lost)
    | None => True
    end.

(** An alternative run on the empty node of its variable. *)
Definition alt_ok (D : nat -> Node -> Prop) (label : string)
  (alt : St -> Flow) : Prop :=
  forall lost,
    match alt (leaf label, lost) with
    | Return idx_out (v, l) => l = lost /\ D idx_out v
    | Next st' => st' = (leaf label, lost)
    | OutOfFuel => True
    end.

(** ** Termination and cursor bounds *)

(** A call at a position from [lo] up to the terminator returns, and on
    success its cursor has moved forward without passing the terminator. *)
Definition call_total (s : string) (lo : nat)
  (f : nat -> St -> option Result) : Prop :=
  forall idx st,
    lo <= idx <= strlen s ->
    match f idx st with
    | Some (Some idx_out, _) => idx < idx_out <= strlen s
    | Some (None, _) => True
    | None => False
    end.

Definition alt_total (s : string) (idx : nat) (alt : St -> Flow) : Prop :=
  forall st,
    match alt st with
    | Return idx_out _ => idx < idx_out <= strlen s
    | Next _ => True
    | OutOfFuel => False
    end.

(** ** More fuel does not change a result *)

Definition extends (f f' : nat -> St -> option Result) : Prop :=
  forall idx st r, f idx st = Some r -> f' idx st = Some r.

Definition alt_extends (alt alt' : St -> Flow) : Prop :=
  forall st, alt st <> OutOfFuel -> alt' st = alt st.

(** ** Calls with an assertion on the node *)

(** Decidable form of [has_room]. *)
Definition has_room_b (p : Node) : bool :=
  match childs p with
  | [None; None; None; None]
  | [Some _; None; None; None]
  | [Some _; Some _; None; None]
  | [Some _; Some _; Some _; None] => true
  | _ => false
  end.

(** [f] with an assertion at its entry: the call is refused (no result)
    when the node it is given has no empty slot after a contiguous prefix
    of children. *)
Definition checked (f : nat -> St -> option Result) : nat -> St -> option Result :=
  fun idx st => if has_room_b (fst st) then f idx st else None.

(** [RE] and [RE_prime] with the assertion at every recursive call. *)
Fixpoint RE_checked (fuel : nat) (reg_expr : string) (idx_in : nat) (st : St)
  {struct fuel} : option Result :=
  match fuel with
  | O => None
  | S fuel' =>
      RE_body reg_expr (checked (RE_checked fuel' reg_expr))
        (checked (RE_prime_checked fuel' reg_expr)) idx_in st
  end
with RE_prime_checked (fuel : nat) (reg_expr : string) (idx_in : nat) (st : St)
  {struct fuel} : option Result :=
  match fuel with
  | O => None
  | S fuel' =>
      RE_prime_body reg_expr (checked (RE_checked fuel' reg_expr))
        (checked (RE_prime_checked fuel' reg_expr)) idx_in st
  end.

(** [f'] gives every result that [f] gives on a node with room. *)
Definition agrees (f f' : nat -> St -> option Result) : Prop :=
  forall idx p lost r,
    has_room p -> f idx (p, lost) = Some r -> f' idx (p, lost) = Some r.

Definition alt_agrees (label : string) (alt alt' : St -> Flow) : Prop :=
  forall lost,
    alt (leaf label, lost) <> OutOfFuel ->
    alt' (leaf label, lost) = alt (leaf label, lost).

(** [parse] over the functions with assertions. *)
Definition parse_checked (fuel : nat) (reg_expr : string) (p_node : Node)
  : option (bool * St) :=
  let start_index := 0 in
  let p_node := node_init p_node "Root" in
  match checked (RE_checked fuel reg_expr) start_index (p_node, []) with
  | Some (Some end_index, st) =>
      Some (Ascii.eqb (char_at reg_expr end_index) NUL, st)
  | Some (None, st) => Some (false, st)
  | None => None
  end.

(** ** Reading a tree *)

Definition is_leaf (cs : list (option Node)) : bool :=
  match attached cs with
  | [] => true
  | _ :: _ => false
  end.

(** The labels of the leaves, left to right. *)
Fixpoint yield (t : Node) : string :=
  match t with
  | mkNode c cs =>
      if is_leaf cs then c
      else
        (fix go (l : list (option Node)) : string :=
           match l with
           | [] => ""
           | None :: l' => go l'
           | Some x :: l' => (yield x ++ go l')%string
           end) cs
  end.

(** The same, a leaf labelled "#" counting for the empty string. *)
Fixpoint yield_hash_empty (t : Node) : string :=
  match t with
  | mkNode c cs =>
      if is_leaf cs then (if String.eqb c "#" then "" else c)
      else
        (fix go (l : list (option Node)) : string :=
           match l with
           | [] => ""
           | None :: l' => go l'
           | Some x :: l' => (yield_hash_empty x ++ go l')%string
           end) cs
  end.

(** Every node of the tree rooted at [t]. *)
Fixpoint all_nodes (t : Node) : list Node :=
  match t with
  | mkNode _ cs =>
      t :: (fix go (l : list (option Node)) : list Node :=
              match l with
              | [] => []
              | None :: l' => go l'
              | Some x :: l' => all_nodes x ++ go l'
              end) cs
  end.

(** The node is a [struct Node]: [MAX_CHILDS] slots, hence at most
    [MAX_CHILDS] attached children. *)
Definition fan_out_ok (n : Node) : Prop :=
  length (childs n) = MAX_CHILDS /\ length (attached (childs n)) <= MAX_CHILDS.

(** ** The language of the grammar *)

(** One constructor per alternative of the grammar in the heading of the
    source file. *)
Inductive lang_RE : string -> Prop :=
| L_epsilon_RE_prime w : lang_RE_prime w -> lang_RE (String "#" w)
| L_symbol_RE_prime c w :
    is_symbol_char c = true -> lang_RE_prime w -> lang_RE (String c w)
| L_lpar_RE_rpar_RE_prime w w' :
    lang_RE w -> lang_RE_prime w' -> lang_RE (String "(" (w ++ String ")" w'))
| L_lpar_RE_rpar w : lang_RE w -> lang_RE (String "(" (w ++ ")"))
| L_epsilon : lang_RE "#"
| L_symbol c : is_symbol_char c = true -> lang_RE (String c "")
with lang_RE_prime : string -> Prop :=
| L_plus_RE_RE_prime w w' :
    lang_RE w -> lang_RE_prime w' -> lang_RE_prime (String "+" (w ++ w'))
| L_plus_RE w : lang_RE w -> lang_RE_prime (String "+" w)
| L_star_RE_prime w : lang_RE_prime w -> lang_RE_prime (String "*" w)
| L_RE_RE_prime w w' : lang_RE w -> lang_RE_prime w' -> lang_RE_prime (w ++ w')
| L_RE w : lang_RE w -> lang_RE_prime w
| L_star : lang_RE_prime "*".

Scheme lang_RE_ind2 := Minimality for lang_RE Sort Prop
  with lang_RE_prime_ind2 := Minimality for lang_RE_prime Sort Prop.
Combined Scheme lang_mutind from lang_RE_ind2, lang_RE_prime_ind2.

(** The grammar before the removal of the left recursion:
    RE ::= # | symbol | RE + RE | RE RE | RE * | ( RE ). *)
Inductive lang_source : string -> Prop :=
| S_epsilon : lang_source "#"
| S_symbol c : is_symbol_char c = true -> lang_source (String c "")
| S_plus w w' :
    lang_source w -> lang_source w' -> lang_source (w ++ String "+" w')
| S_concat w w' : lang_source w -> lang_source w' -> lang_source (w ++ w')
| S_star w : lang_source w -> lang_source (w ++ "*")
| S_par w : lang_source w -> lang_source (String "(" (w ++ ")")).

(** ** Trees and nodes of the examples *)

(** What [parse] leaves in the root for "ab", "a+b", "#", "a*", "(a)*" and
    "a)". *)
Definition tree_ab : Node :=
  mkNode "Root"
    [Some (mkNode "RE"
       [Some (leaf "a");
        Some (mkNode "RE'"
          [Some (mkNode "RE" [Some (leaf "b"); None; None; None]);
           None; None; None]);
        None; None]);
     None; None; None].

Definition tree_a_plus_b : Node :=
  mkNode "Root"
    [Some (mkNode "RE"
       [Some (leaf "a");
        Some (mkNode "RE'"
          [Some (leaf "+");
           Some (mkNode "RE" [Some (leaf "b"); None; None; None]);
           None; None]);
        None; None]);
     None; None; None].

Definition tree_hash : Node :=
  mkNode "Root"
    [Some (mkNode "RE" [Some (leaf "#"); None; None; None]); None; None; None].

Definition tree_a_star : Node :=
  mkNode "Root"
    [Some (mkNode "RE"
       [Some (leaf "a");
        Some (mkNode "RE'" [Some (leaf "*"); None; None; None]);
        None; None]);
     None; None; None].

(** Fuel that is enough for [parse] on [s]. *)
Definition enough_fuel (s : string) : nat := 2 * strlen s + 1.

Definition root_empty : Node := mkNode "Root" [None; None; None; None].

Definition tree_par_a_star : Node :=
  mkNode "Root"
    [Some (mkNode "RE"
       [Some (leaf "(");
        Some (mkNode "RE" [Some (leaf "a"); None; None; None]);
        Some (leaf ")");
        Some (mkNode "RE'" [Some (leaf "*"); None; None; None])]);
     None; None; None].

Definition tree_a : Node :=
  mkNode "Root"
    [Some (mkNode "RE" [Some (leaf "a"); None; None; None]); None; None; None].

Definition node_RE_a : Node := mkNode "RE" [Some (leaf "a"); None; None; None].

(** [r] is what freeing exactly the last [n] attached children of [p]
    gives: from some slot [k] on there are [n] attached children, they are
    the ones handed to [node_free], highest slot first, every slot from [k]
    on is NULL afterwards and the slots before [k] are untouched. *)
Definition last_n_freed (p : Node) (n : nat) (r : Node * list Node) : Prop :=
  exists k,
    length (attached (skipn k (childs p))) = n
    /\ r = (mkNode (content p)
              (firstn k (childs p) ++ replicate (length (childs p) - k) None),
            rev (attached (skipn k (childs p)))).

Definition node_RE_full : Node :=
  mkNode "RE"
    [Some (leaf "(");
     Some (mkNode "RE" [Some (leaf "a"); None; None; None]);
     Some (leaf ")");
     Some (mkNode "RE'" [Some (leaf "*"); None; None; None])].

(** ** Printing the tree and the driver *)

(** Size of the [content] array of a node. *)
Definition MAX_CONTENT_LEN : nat := 16.

(** Indentation added for a child when the tree is printed. *)
Definition INDENTATION : nat := 1.

(** The text of the escape for a new line in a format of [printf]. *)
Definition newline : string := String (ascii_of_nat 10) "".

(** The loop that prints [indent] times "-". *)
Fixpoint dashes (indent : nat) : string :=
  match indent with
  | O => ""
  | S n => String "-" (dashes n)
  end.

(** [tree_print] on a node that is not NULL: what it writes to the standard
    output.  [printf("%s\n", ...)] writes the label up to its terminator. *)
Fixpoint tree_print_node (p_node : Node) (indent : nat) : string :=
  match p_node with
  | mkNode c cs =>
      ((dashes indent ++ c_string c ++ newline)
       ++ (fix print_slots (k : nat) (l : list (option Node)) {struct l}
             : string :=
             match k, l with
             | S k', o :: l' =>
                 (match o with
                  | Some child => tree_print_node child (indent + INDENTATION)
                  | None => ""
                  end ++ print_slots k' l')%string
             | _, _ => ""
             end) MAX_CHILDS cs)%string
  end.

(** [tree_print]: nothing is written for NULL. *)
Definition tree_print (p_node : option Node) (indent : nat) : string :=
  match p_node with
  | Some n => tree_print_node n indent
  | None => ""
  end.

(** [printf("%d", n)]. *)
Definition print_int (n : Z) : string :=
  DecimalString.NilEmpty.string_of_int (Z.to_int n).

(** What a run of [main] leaves: the text written to the standard output,
    the exit status, the root node at exit (when it was declared), the
    nodes that were attached nowhere, and the nodes released by the final
    [node_free_childs]. *)
Record Run : Type := mkRun {
  stdout : string;
  status : Z;
  tree_at_exit : option Node;
  unattached : list Node;
  released : list Node
}.

(** [main], [argv] holding the [argc] arguments, the name of the program
    first. *)
Definition main (fuel : nat) (argv : list string) : option Run :=
  let argc := Z.of_nat (length argv) in
  if negb (argc =? 2)%Z then
    Some (mkRun
            ("Wrong number of command-line arguments: "
             ++ print_int (argc - 1) ++ " arguments found, "
             ++ print_int 1 ++ " expected" ++ newline)%string
            1 None [] [])
  else
    let tree := node_new in
    match parse fuel (nth 1 argv "") tree with
    | None => None
    | Some (result, (tree, lost)) =>
        let out :=
          if result then tree_print (child_at tree 0) 0
          else ("Syntax error" ++ newline)%string in
        let (tree, freed) := node_free_childs tree in
        Some (mkRun out 0 (Some tree) lost (flat_map node_free freed))
    end.

(** ** Vocabulary of the further properties *)

(** A node whose slot 1 is empty below an occupied slot 2. *)
Definition node_gap : Node :=
  mkNode "RE" [Some (leaf "("); None; Some (leaf ")"); None].

(** The six recognizers of single characters. *)
Definition terminals : list (string -> nat -> St -> Result) :=
  [epsilon; symbol; lpar; rpar; star; plus].

(** The recognizer returned true. *)
Definition succeeds (r : Result) : bool :=
  match fst r with
  | Some _ => true
  | None => false
  end.

(** What a call returns, the tree apart. *)
Definition verdict (r : option Result) : option (option nat) :=
  option_map fst r.

Definition flow_verdict (f : Flow) : option (option nat) :=
  match f with
  | Return idx_out _ => Some (Some idx_out)
  | Next _ => Some None
  | OutOfFuel => None
  end.

Definition same_verdict (f : nat -> St -> option Result) : Prop :=
  forall idx st st', verdict (f idx st) = verdict (f idx st').

Definition alt_same_verdict (alt : St -> Flow) : Prop :=
  forall st st', flow_verdict (alt st) = flow_verdict (alt st').

(** Depth of parentheses: the effect of one character, and of the [n]
    characters from position [a] on. [None]: a ")" without its "(". *)
Definition paren_step (c : ascii) (d : nat) : option nat :=
  if 40 =? nat_of_ascii c then Some (S d)
  else if 41 =? nat_of_ascii c then
    match d with
    | O => None
    | S d' => Some d'
    end
  else Some d.

Fixpoint scan (s : string) (a n d : nat) : option nat :=
  match n with
  | O => Some d
  | S n' =>
      match paren_step (char_at s a) d with
      | Some d' => scan s (a + 1) n' d'
      | None => None
      end
  end.

(** On success the cursor is the end of the longest derivation from the
    position of the call; on failure there is no derivation from there. *)
Definition call_max (s : string) (D : nat -> nat -> Node -> Prop) (lo : nat)
  (f : nat -> St -> option Result) : Prop :=
  forall idx p lost,
    lo <= idx <= strlen s ->
    has_room p ->
    match f idx (p, lost) with
    | Some (Some j, _) => forall k t, D idx k t -> k <= j
    | Some (None, _) => forall k t, ~ D idx k t
    | None => True
    end.

Definition flow_max (D : nat -> Node -> Prop) (fl : Flow) : Prop :=
  match fl with
  | Return j _ => forall k t, D k t -> k <= j
  | Next _ => forall k t, ~ D k t
  | OutOfFuel => True
  end.

(** The label, with its terminator, fits the [content] array and holds no
    NUL; the children fill a prefix of the slots. *)
Definition node_ok (n : Node) : Prop :=
  String.length (content n) + 1 <= MAX_CONTENT_LEN
  /\ strlen (content n) = String.length (content n)
  /\ childs n = slots (attached (childs n)).

(** The leaves of a tree. *)
Definition leaves (t : Node) : list Node :=
  List.filter (fun n => is_leaf (childs n)) (all_nodes t).

(** The run of [main] on the argument "ab". *)
Definition run_ab : Run :=
  mkRun (tree_print (child_at tree_ab 0) 0) 0 (Some root_empty) []
    (flat_map node_free (attached (childs tree_ab))).

(** The newline character. *)
Definition LF : ascii := ascii_of_nat 10.

(** The lines of a text: the pieces that end at a newline, and the rest
    after the last newline when it is not empty. *)
Fixpoint lines (s : string) : list string :=
  match s with
  | EmptyString => []
  | String c r =>
      if Ascii.eqb c LF then EmptyString :: lines r
      else
        match lines r with
        | [] => [String c EmptyString]
        | l :: ls => String c l :: ls
        end
  end.

(** The character [c] occurs in [s]. *)
Fixpoint has_char (c : ascii) (s : string) : bool :=
  match s with
  | EmptyString => false
  | String x r => Ascii.eqb x c || has_char c r
  end.

(** The nodes of a tree in the order of [all_nodes], each with the
    indentation [tree_print] is called with when it reaches the node. *)
Fixpoint levels (t : Node) (indent : nat) : list (nat * Node) :=
  match t with
  | mkNode _ cs =>
      (indent, t)
      :: (fix go (l : list (option Node)) : list (nat * Node) :=
            match l with
            | [] => []
            | None :: l' => go l'
            | Some x :: l' => levels x (indent + INDENTATION) ++ go l'
            end) cs
  end.

(** The line of a node: the dashes, then the label. *)
Definition line_of (e : nat * Node) : string :=
  (dashes (fst e) ++ c_string (content (snd e)))%string.

(** A node as [struct Node] has it, no more than [MAX_CHILDS] slots, whose
    label holds no newline. *)
Definition printable (n : Node) : Prop :=
  length (childs n) <= MAX_CHILDS
  /\ has_char LF (c_string (content n)) = false.

(** * Properties *)

(** ** The tree store on compact nodes *)

Lemma has_room_inv p :
  has_room p ->
  exists c,
    p = mkNode c [None; None; None; None]
    \/ (exists x, p = mkNode c [Some x; None; None; None])
    \/ (exists x y, p = mkNode c [Some x; Some y; None; None])
    \/ (exists x y z, p = mkNode c [Some x; Some y; Some z; None]).
Proof.
  destruct p as [c cs]. intros (l & Hl & Hc). exists c.
  simpl in Hc. subst cs.
  do 4 (destruct l as [|? l]; [cbv; eauto 10|]).
  simpl in Hl. unfold MAX_CHILDS in Hl. lia.
Qed.

Lemma has_room_leaf s : has_room (leaf s).
Proof. room. Qed.

Lemma production_room label alts p lost :
  has_room p ->
  production label alts (p, lost) =
  match in_order alts (leaf label, lost) with
  | Return idx_out (v, l) => Some (Some idx_out, (push p v, l))
  | Next (v, l) => Some (None, (p, l))
  | OutOfFuel => None
  end.
Proof.
  intros H. destruct (has_room_inv p H) as [c [->|[[x ->]|[[x [y ->]]|[x [y [z ->]]]]]]];
    unfold production, leaf; cbn;
    destruct (in_order alts _) as [o [v l]|[v l]|]; reflexivity.
Qed.

Lemma in_order_ok D label alts :
  Forall (alt_ok D label) alts -> alt_ok D label (in_order alts).
Proof.
  induction 1 as [|alt rest Halt _ IH]; intros lost; simpl.
  - reflexivity.
  - specialize (Halt lost). destruct (alt (leaf label, lost)) as [o [v l]|st'|].
    + exact Halt.
    + subst st'. apply IH.
    + exact I.
Qed.

Lemma production_ok (D : nat -> nat -> Node -> Prop) label alts :
  (forall idx, alt_ok (D idx) label (in_order (alts idx))) ->
  call_ok D (fun idx => production label (alts idx)).
Proof.
  intros H idx p lost Hroom. rewrite production_room by assumption.
  specialize (H idx lost).
  destruct (in_order (alts idx) (leaf label, lost)) as [o [v l]|[v l]|].
  - destruct H as [-> HD]. eauto.
  - congruence.
  - exact I.
Qed.

Lemma code_eq n c : (n =? nat_of_ascii c) = true -> c = ascii_of_nat n.
Proof.
  intros H. apply Nat.eqb_eq in H. subst n. symmetry. apply ascii_nat_embedding.
Qed.

Lemma ascii_eqb_true c d : Ascii.eqb c d = true -> c = d.
Proof. apply Ascii.eqb_eq. Qed.

Section AlternativesOk.

Variable s : string.
Variables RE_rec RE_prime_rec : nat -> St -> option Result.
Hypothesis RE_rec_ok : call_ok (tree_RE s) RE_rec.
Hypothesis RE_prime_rec_ok : call_ok (tree_RE_prime s) RE_prime_rec.

(** Run the next recursive call with its contract [H]. *)
Ltac call H :=
  match type of H with
  | call_ok _ ?f =>
      match goal with
      | |- context [f ?i (?p, ?l)] =>
          let R := fresh "R" in
          let C := fresh "C" in
          assert (R : has_room p) by room;
          pose proof (H i p l R) as C; clear R;
          destruct (f i (p, l)) as [[[?out|] ?st]|];
          [ destruct C as (?t & -> & ?D) | subst | ];
          cbn
      end
  end.

(** Decide the test of a terminal. *)
Ltac terminal f :=
  unfold f;
  match goal with
  | |- context [if ?b then _ else _] =>
      let E := fresh "E" in
      destruct b eqn:E; cbn;
      [ first [apply code_eq in E | apply ascii_eqb_true in E | idtac] | ]
  end.

Ltac done_with c :=
  try exact I; try reflexivity;
  try (split; [reflexivity | eapply c; eauto]).

Lemma RE_prime_plus_RE_RE_prime_ok idx :
  alt_ok (tree_RE_prime s idx) "RE'"
    (RE_prime_plus_RE_RE_prime s RE_rec RE_prime_rec idx).
Proof.
  intros lost. unfold RE_prime_plus_RE_RE_prime. terminal plus.
  - call RE_rec_ok; [call RE_prime_rec_ok| |];
      done_with T_plus_RE_RE_prime.
  - reflexivity.
Qed.

Lemma RE_prime_plus_RE_ok idx :
  alt_ok (tree_RE_prime s idx) "RE'" (RE_prime_plus_RE s RE_rec idx).
Proof.
  intros lost. unfold RE_prime_plus_RE. terminal plus.
  - call RE_rec_ok; done_with T_plus_RE.
  - reflexivity.
Qed.

Lemma RE_prime_star_RE_prime_ok idx :
  alt_ok (tree_RE_prime s idx) "RE'" (RE_prime_star_RE_prime s RE_prime_rec idx).
Proof.
  intros lost. unfold RE_prime_star_RE_prime. terminal star.
  - call RE_prime_rec_ok; done_with T_star_RE_prime.
  - reflexivity.
Qed.

Lemma RE_prime_RE_RE_prime_ok idx :
  alt_ok (tree_RE_prime s idx) "RE'"
    (RE_prime_RE_RE_prime RE_rec RE_prime_rec idx).
Proof.
  intros lost. unfold RE_prime_RE_RE_prime.
  call RE_rec_ok; [call RE_prime_rec_ok| |]; done_with T_RE_RE_prime.
Qed.

Lemma RE_prime_RE_ok idx :
  alt_ok (tree_RE_prime s idx) "RE'" (RE_prime_RE RE_rec idx).
Proof.
  intros lost. unfold RE_prime_RE. call RE_rec_ok; done_with T_RE.
Qed.

Lemma RE_prime_star_ok idx :
  alt_ok (tree_RE_prime s idx) "RE'" (RE_prime_star s idx).
Proof.
  intros lost. unfold RE_prime_star. terminal star; done_with T_star.
Qed.

Lemma RE_epsilon_RE_prime_ok idx :
  alt_ok (tree_RE s idx) "RE" (RE_epsilon_RE_prime s RE_prime_rec idx).
Proof.
  intros lost. unfold RE_epsilon_RE_prime. terminal epsilon.
  - call RE_prime_rec_ok; done_with T_epsilon_RE_prime.
  - reflexivity.
Qed.

Lemma RE_symbol_RE_prime_ok idx :
  alt_ok (tree_RE s idx) "RE" (RE_symbol_RE_prime s RE_prime_rec idx).
Proof.
  intros lost. unfold RE_symbol_RE_prime. terminal symbol.
  - call RE_prime_rec_ok; done_with T_symbol_RE_prime.
  - reflexivity.
Qed.

Lemma RE_lpar_RE_rpar_RE_prime_ok idx :
  alt_ok (tree_RE s idx) "RE"
    (RE_lpar_RE_rpar_RE_prime s RE_rec RE_prime_rec idx).
Proof.
  intros lost. unfold RE_lpar_RE_rpar_RE_prime. terminal lpar.
  - call RE_rec_ok; [terminal rpar; [call RE_prime_rec_ok|] | |];
      done_with T_lpar_RE_rpar_RE_prime.
  - reflexivity.
Qed.

Lemma RE_lpar_RE_rpar_ok idx :
  alt_ok (tree_RE s idx) "RE" (RE_lpar_RE_rpar s RE_rec idx).
Proof.
  intros lost. unfold RE_lpar_RE_rpar. terminal lpar.
  - call RE_rec_ok; [terminal rpar | |]; done_with T_lpar_RE_rpar.
  - reflexivity.
Qed.

Lemma RE_epsilon_ok idx :
  alt_ok (tree_RE s idx) "RE" (RE_epsilon s idx).
Proof.
  intros lost. unfold RE_epsilon. terminal epsilon; done_with T_epsilon.
Qed.

Lemma RE_symbol_ok idx :
  alt_ok (tree_RE s idx) "RE" (RE_symbol s idx).
Proof.
  intros lost. unfold RE_symbol. terminal symbol; done_with T_symbol.
Qed.

Lemma RE_alternatives_ok idx :
  Forall (alt_ok (tree_RE s idx) "RE")
    (RE_alternatives s RE_rec RE_prime_rec idx).
Proof.
  repeat constructor;
    auto using RE_epsilon_RE_prime_ok, RE_symbol_RE_prime_ok,
      RE_lpar_RE_rpar_RE_prime_ok, RE_lpar_RE_rpar_ok, RE_epsilon_ok,
      RE_symbol_ok.
Qed.

Lemma RE_prime_alternatives_ok idx :
  Forall (alt_ok (tree_RE_prime s idx) "RE'")
    (RE_prime_alternatives s RE_rec RE_prime_rec idx).
Proof.
  repeat constructor;
    auto using RE_prime_plus_RE_RE_prime_ok, RE_prime_plus_RE_ok,
      RE_prime_star_RE_prime_ok, RE_prime_RE_RE_prime_ok, RE_prime_RE_ok,
      RE_prime_star_ok.
Qed.

Lemma RE_body_ok : call_ok (tree_RE s) (RE_body s RE_rec RE_prime_rec).
Proof.
  apply (production_ok (tree_RE s) "RE").
  intros idx. apply in_order_ok, RE_alternatives_ok.
Qed.

Lemma RE_prime_body_ok :
  call_ok (tree_RE_prime s) (RE_prime_body s RE_rec RE_prime_rec).
Proof.
  apply (production_ok (tree_RE_prime s) "RE'").
  intros idx. apply in_order_ok, RE_prime_alternatives_ok.
Qed.

End AlternativesOk.

Lemma RE_ok fuel s :
  call_ok (tree_RE s) (RE fuel s) /\ call_ok (tree_RE_prime s) (RE_prime fuel s).
Proof.
  induction fuel as [|fuel [IH1 IH2]].
  - split; intros idx p lost _; exact I.
  - split; simpl.
    + apply RE_body_ok; assumption.
    + apply RE_prime_body_ok; assumption.
Qed.

(** ** The input text *)

Lemma strlen_step s : forall i,
  i <= strlen s -> char_at s i <> NUL -> i + 1 <= strlen s.
Proof.
  induction s as [|c s IH]; intros i Hi Hc; simpl in *.
  - assert (i = 0) by lia. subst i. now elim Hc.
  - destruct (Ascii.eqb c NUL) eqn:E.
    + assert (i = 0) by lia. subst i. apply Ascii.eqb_eq in E.
      elim Hc. exact E.
    + destruct i as [|i]; [lia|]. specialize (IH i).
      unfold char_at in *. simpl in Hc. apply IH in Hc; lia.
Qed.

Lemma char_at_strlen s : char_at s (strlen s) = NUL.
Proof.
  induction s as [|c s IH]; simpl; [reflexivity|].
  destruct (Ascii.eqb c NUL) eqn:E.
  - apply Ascii.eqb_eq in E. exact E.
  - exact IH.
Qed.

Lemma drop_char s : forall i,
  char_at s i <> NUL -> drop i s = String (char_at s i) (drop (i + 1) s).
Proof.
  induction s as [|c s IH]; intros i Hc.
  - destruct i; now elim Hc.
  - destruct i as [|i]; [reflexivity|].
    unfold char_at in *. simpl in *. apply IH. exact Hc.
Qed.

Lemma take_append_length y r : take (String.length y) (y ++ r)%string = y.
Proof. induction y as [|c y IH]; simpl; [now destruct r | now rewrite IH]. Qed.

Lemma append_empty_r y : (y ++ "")%string = y.
Proof. induction y as [|c y IH]; simpl; [reflexivity | now rewrite IH]. Qed.

Lemma append_assoc_s x y z : ((x ++ y) ++ z)%string = (x ++ (y ++ z))%string.
Proof. induction x as [|c x IH]; simpl; [reflexivity | now rewrite IH]. Qed.

Lemma length_append_s x y :
  String.length (x ++ y)%string = String.length x + String.length y.
Proof. induction x as [|c x IH]; simpl; [reflexivity | now rewrite IH]. Qed.

Lemma in_order_total s idx alts :
  Forall (alt_total s idx) alts -> alt_total s idx (in_order alts).
Proof.
  induction 1 as [|alt rest Halt _ IH]; intros st; simpl.
  - exact I.
  - specialize (Halt st). destruct (alt st) as [o st'|st'|].
    + exact Halt.
    + apply IH.
    + exact Halt.
Qed.

Lemma production_total s lo label alts :
  (forall idx, lo <= idx <= strlen s -> alt_total s idx (in_order (alts idx))) ->
  call_total s lo (fun idx => production label (alts idx)).
Proof.
  intros H idx [p lost] Hidx. unfold production.
  destruct (node_add_child p (node_init node_new label)) as [p' slot].
  specialize (H idx Hidx (node_init node_new label, lost)).
  destruct (in_order (alts idx) _) as [o st'|st'|]; auto.
Qed.

Section AlternativesTotal.

Variable s : string.
Variable idx : nat.
Variables RE_rec RE_prime_rec : nat -> St -> option Result.
Hypothesis idx_le : idx <= strlen s.
Hypothesis RE_rec_total : call_total s (idx + 1) RE_rec.
Hypothesis RE_prime_rec_total : call_total s (idx + 1) RE_prime_rec.

Ltac call H :=
  match type of H with
  | call_total _ ?lo ?f =>
      match goal with
      | |- context [f ?i ?x] =>
          let B := fresh "B" in
          let C := fresh "C" in
          assert (B : lo <= i <= strlen s) by lia;
          pose proof (H i x B) as C; clear B;
          destruct (f i x) as [[[?out|] ?st]|]; [ | | contradiction]
      end
  end.

(** Decide the test of a terminal; a character that passes it is not the
    terminator. *)
Ltac terminal f :=
  unfold f;
  match goal with
  | |- context [if ?b then _ else _] =>
      let E := fresh "E" in
      let N := fresh "N" in
      destruct b eqn:E;
      [ assert (N : idx + 1 <= strlen s)
          by (apply strlen_step;
              [exact idx_le | intros N; rewrite N in E; discriminate E])
      | ]
  end.

Lemma RE_epsilon_RE_prime_total :
  alt_total s idx (RE_epsilon_RE_prime s RE_prime_rec idx).
Proof.
  intros st. unfold RE_epsilon_RE_prime. terminal epsilon; [|exact I].
  call RE_prime_rec_total; [lia | exact I].
Qed.

Lemma RE_symbol_RE_prime_total :
  alt_total s idx (RE_symbol_RE_prime s RE_prime_rec idx).
Proof.
  intros st. unfold RE_symbol_RE_prime. terminal symbol; [|exact I].
  call RE_prime_rec_total; [lia | exact I].
Qed.

(** [rpar] after a successful inner [RE]: its cursor is in range. *)
Lemma rpar_bound i st o st' :
  i <= strlen s -> rpar s i st = (Some o, st') -> i < o <= strlen s.
Proof.
  unfold rpar. intros Hi.
  destruct (41 =? nat_of_ascii (char_at s i)) eqn:E; [|discriminate].
  intros [= <- _].
  assert (i + 1 <= strlen s); [|lia].
  apply strlen_step; [exact Hi | intros N; rewrite N in E; discriminate E].
Qed.

Lemma RE_lpar_RE_rpar_RE_prime_total :
  alt_total s idx (RE_lpar_RE_rpar_RE_prime s RE_rec RE_prime_rec idx).
Proof.
  intros st. unfold RE_lpar_RE_rpar_RE_prime. terminal lpar; [|exact I].
  call RE_rec_total; [|exact I].
  destruct (rpar s out st0) as [[o|] st1] eqn:R; [|exact I].
  apply rpar_bound in R; [|lia].
  call RE_prime_rec_total; [lia | exact I].
Qed.

Lemma RE_lpar_RE_rpar_total :
  alt_total s idx (RE_lpar_RE_rpar s RE_rec idx).
Proof.
  intros st. unfold RE_lpar_RE_rpar. terminal lpar; [|exact I].
  call RE_rec_total; [|exact I].
  destruct (rpar s out st0) as [[o|] st1] eqn:R; [|exact I].
  apply rpar_bound in R; lia.
Qed.

Lemma RE_epsilon_total : alt_total s idx (RE_epsilon s idx).
Proof.
  intros st. unfold RE_epsilon. terminal epsilon; [lia | exact I].
Qed.

Lemma RE_symbol_total : alt_total s idx (RE_symbol s idx).
Proof.
  intros st. unfold RE_symbol. terminal symbol; [lia | exact I].
Qed.

Lemma RE_alternatives_total :
  Forall (alt_total s idx) (RE_alternatives s RE_rec RE_prime_rec idx).
Proof.
  repeat constructor;
    auto using RE_epsilon_RE_prime_total, RE_symbol_RE_prime_total,
      RE_lpar_RE_rpar_RE_prime_total, RE_lpar_RE_rpar_total,
      RE_epsilon_total, RE_symbol_total.
Qed.

(** RE' also calls [RE] at its own position. *)
Hypothesis RE_rec_here : call_total s idx RE_rec.

Lemma RE_prime_plus_RE_RE_prime_total :
  alt_total s idx (RE_prime_plus_RE_RE_prime s RE_rec RE_prime_rec idx).
Proof.
  intros st. unfold RE_prime_plus_RE_RE_prime. terminal plus; [|exact I].
  call RE_rec_total; [|exact I].
  call RE_prime_rec_total; [lia | exact I].
Qed.

Lemma RE_prime_plus_RE_total :
  alt_total s idx (RE_prime_plus_RE s RE_rec idx).
Proof.
  intros st. unfold RE_prime_plus_RE. terminal plus; [|exact I].
  call RE_rec_total; [lia | exact I].
Qed.

Lemma RE_prime_star_RE_prime_total :
  alt_total s idx (RE_prime_star_RE_prime s RE_prime_rec idx).
Proof.
  intros st. unfold RE_prime_star_RE_prime. terminal star; [|exact I].
  call RE_prime_rec_total; [lia | exact I].
Qed.

Lemma RE_prime_RE_RE_prime_total :
  alt_total s idx (RE_prime_RE_RE_prime RE_rec RE_prime_rec idx).
Proof.
  intros st. unfold RE_prime_RE_RE_prime.
  call RE_rec_here; [|exact I].
  call RE_prime_rec_total; [lia | exact I].
Qed.

Lemma RE_prime_RE_total : alt_total s idx (RE_prime_RE RE_rec idx).
Proof.
  intros st. unfold RE_prime_RE. call RE_rec_here; [lia | exact I].
Qed.

Lemma RE_prime_star_total : alt_total s idx (RE_prime_star s idx).
Proof.
  intros st. unfold RE_prime_star. terminal star; [lia | exact I].
Qed.

Lemma RE_prime_alternatives_total :
  Forall (alt_total s idx) (RE_prime_alternatives s RE_rec RE_prime_rec idx).
Proof.
  repeat constructor;
    auto using RE_prime_plus_RE_RE_prime_total, RE_prime_plus_RE_total,
      RE_prime_star_RE_prime_total, RE_prime_RE_RE_prime_total,
      RE_prime_RE_total, RE_prime_star_total.
Qed.

End AlternativesTotal.

Lemma call_total_weaken s lo lo' f :
  lo <= lo' -> call_total s lo f -> call_total s lo' f.
Proof. intros Hle H idx st Hidx. apply H. lia. Qed.

(** Fuel [2 * (strlen s - lo) + 1] is enough for [RE] from position [lo]
    on, and one more for [RE_prime]. *)
Lemma RE_total_from s fuel : forall lo,
  (2 * (strlen s - lo) + 1 <= fuel -> call_total s lo (RE fuel s))
  /\ (2 * (strlen s - lo) + 2 <= fuel -> call_total s lo (RE_prime fuel s)).
Proof.
  induction fuel as [|fuel IH]; intros lo.
  - split; intros; lia.
  - assert (Hnext : forall idx, lo <= idx <= strlen s ->
              2 * (strlen s - lo) + 1 <= S fuel ->
              call_total s (idx + 1) (RE fuel s)
              /\ call_total s (idx + 1) (RE_prime fuel s)).
    { intros idx Hidx Hfuel.
      destruct (Nat.eq_dec idx (strlen s)) as [->|Hne].
      - split; intros i st Hi; lia.
      - destruct (IH (idx + 1)) as [H1 H2]. split; [apply H1 | apply H2]; lia. }
    split; intros Hfuel; simpl.
    + apply (production_total s lo "RE"). intros idx Hidx.
      destruct (Hnext idx Hidx) as [H1 H2]; [lia|].
      apply in_order_total, RE_alternatives_total; [lia | exact H1 | exact H2].
    + apply (production_total s lo "RE'"). intros idx Hidx.
      destruct (Hnext idx Hidx) as [H1 H2]; [lia|].
      apply in_order_total, RE_prime_alternatives_total;
        [lia | exact H1 | exact H2 |].
      destruct (IH idx) as [H _]. apply H. lia.
Qed.

(** What the body of [RE] needs of the functions it calls: that they return
    when called behind the position of the body. *)
Lemma RE_body_total s idx RE_rec RE_prime_rec st :
  idx <= strlen s ->
  call_total s (idx + 1) RE_rec ->
  call_total s (idx + 1) RE_prime_rec ->
  match RE_body s RE_rec RE_prime_rec idx st with
  | Some (Some idx_out, _) => idx < idx_out <= strlen s
  | Some (None, _) => True
  | None => False
  end.
Proof.
  intros Hidx H1 H2. destruct st as [p lost]. unfold RE_body, production.
  destruct (node_add_child p (node_init node_new "RE")) as [p' slot].
  pose proof (in_order_total s idx _
                (RE_alternatives_total s idx RE_rec RE_prime_rec Hidx H1 H2)
                (node_init node_new "RE", lost)) as T.
  destruct (in_order _ _) as [o st'|st'|]; auto.
Qed.

(** The body of [RE_prime] also calls [RE] at its own position. *)
Lemma RE_prime_body_total s idx RE_rec RE_prime_rec st :
  idx <= strlen s ->
  call_total s idx RE_rec ->
  call_total s (idx + 1) RE_prime_rec ->
  match RE_prime_body s RE_rec RE_prime_rec idx st with
  | Some (Some idx_out, _) => idx < idx_out <= strlen s
  | Some (None, _) => True
  | None => False
  end.
Proof.
  intros Hidx H1 H2. destruct st as [p lost]. unfold RE_prime_body, production.
  destruct (node_add_child p (node_init node_new "RE'")) as [p' slot].
  assert (H1' : call_total s (idx + 1) RE_rec)
    by (apply (call_total_weaken s idx); [lia | exact H1]).
  pose proof (in_order_total s idx _
                (RE_prime_alternatives_total s idx RE_rec RE_prime_rec
                   Hidx H1' H2 H1)
                (node_init node_new "RE'", lost)) as T.
  destruct (in_order _ _) as [o st'|st'|]; auto.
Qed.

Lemma in_order_extends alts alts' :
  Forall2 alt_extends alts alts' ->
  alt_extends (in_order alts) (in_order alts').
Proof.
  induction 1 as [|alt alt' rest rest' Halt _ IH]; intros st H; simpl in *.
  - reflexivity.
  - specialize (Halt st).
    destruct (alt st) as [o st'|st'|]; try (rewrite Halt by congruence).
    + reflexivity.
    + apply IH. exact H.
    + congruence.
Qed.

Lemma production_extends label alts alts' st r :
  alt_extends (in_order alts) (in_order alts') ->
  production label alts st = Some r ->
  production label alts' st = Some r.
Proof.
  intros H. destruct st as [p lost]. unfold production.
  destruct (node_add_child p (node_init node_new label)) as [p' slot].
  specialize (H (node_init node_new label, lost)).
  destruct (in_order alts _) as [o st'|st'|]; try (rewrite H by congruence);
    congruence.
Qed.

Section AlternativesExtend.

Variable s : string.
Variable idx : nat.
Variables RE_rec RE_prime_rec RE_rec' RE_prime_rec' : nat -> St -> option Result.
Hypothesis RE_rec_ext : extends RE_rec RE_rec'.
Hypothesis RE_prime_rec_ext : extends RE_prime_rec RE_prime_rec'.

Ltac terminal t :=
  match goal with
  | |- context [t s ?i ?x] =>
      destruct (t s i x) as [[?|] ?]; try (intros _; reflexivity)
  end.

Ltac call H :=
  match type of H with
  | extends ?f _ =>
      match goal with
      | |- context [f ?i ?x] =>
          let E := fresh "E" in
          destruct (f i x) as [[[?|] ?]|] eqn:E;
          [ rewrite (H _ _ _ E) | rewrite (H _ _ _ E) | congruence ];
          try (intros _; reflexivity)
      end
  end.

Lemma RE_alternatives_extend :
  Forall2 alt_extends
    (RE_alternatives s RE_rec RE_prime_rec idx)
    (RE_alternatives s RE_rec' RE_prime_rec' idx).
Proof.
  unfold RE_alternatives.
  repeat (constructor; [intros st|]); [..|constructor].
  - unfold RE_epsilon_RE_prime. terminal epsilon. call RE_prime_rec_ext.
  - unfold RE_symbol_RE_prime. terminal symbol. call RE_prime_rec_ext.
  - unfold RE_lpar_RE_rpar_RE_prime. terminal lpar. call RE_rec_ext.
    terminal rpar. call RE_prime_rec_ext.
  - unfold RE_lpar_RE_rpar. terminal lpar. call RE_rec_ext.
  - intros _. reflexivity.
  - intros _. reflexivity.
Qed.

Lemma RE_prime_alternatives_extend :
  Forall2 alt_extends
    (RE_prime_alternatives s RE_rec RE_prime_rec idx)
    (RE_prime_alternatives s RE_rec' RE_prime_rec' idx).
Proof.
  unfold RE_prime_alternatives.
  repeat (constructor; [intros st|]); [..|constructor].
  - unfold RE_prime_plus_RE_RE_prime. terminal plus. call RE_rec_ext.
    call RE_prime_rec_ext.
  - unfold RE_prime_plus_RE. terminal plus. call RE_rec_ext.
  - unfold RE_prime_star_RE_prime. terminal star. call RE_prime_rec_ext.
  - unfold RE_prime_RE_RE_prime. call RE_rec_ext. call RE_prime_rec_ext.
  - unfold RE_prime_RE. call RE_rec_ext.
  - intros _. reflexivity.
Qed.

End AlternativesExtend.

Lemma RE_fuel_S s fuel :
  extends (RE fuel s) (RE (S fuel) s)
  /\ extends (RE_prime fuel s) (RE_prime (S fuel) s).
Proof.
  induction fuel as [|fuel [IH1 IH2]].
  - split; intros idx st r H; discriminate H.
  - split; intros idx st r H.
    + change (RE_body s (RE (S fuel) s) (RE_prime (S fuel) s) idx st = Some r).
      change (RE_body s (RE fuel s) (RE_prime fuel s) idx st = Some r) in H.
      revert H. apply production_extends, in_order_extends,
        RE_alternatives_extend; assumption.
    + change (RE_prime_body s (RE (S fuel) s) (RE_prime (S fuel) s) idx st
              = Some r).
      change (RE_prime_body s (RE fuel s) (RE_prime fuel s) idx st = Some r)
        in H.
      revert H. apply production_extends, in_order_extends,
        RE_prime_alternatives_extend; assumption.
Qed.

Lemma RE_fuel_mono s fuel fuel' :
  fuel <= fuel' ->
  extends (RE fuel s) (RE fuel' s)
  /\ extends (RE_prime fuel s) (RE_prime fuel' s).
Proof.
  induction 1 as [|fuel' _ [IH1 IH2]].
  - split; intros idx st r H; exact H.
  - destruct (RE_fuel_S s fuel') as [H1 H2].
    split; intros idx st r H; [apply H1, IH1 | apply H2, IH2]; exact H.
Qed.

(** ** What a derivation tree says about the input *)

Lemma symbol_not_NUL c : is_symbol_char c = true -> c <> NUL.
Proof. intros H ->. discriminate H. Qed.

Lemma tree_bounds s :
  (forall i j t, tree_RE s i j t -> i <= strlen s -> i < j <= strlen s)
  /\ (forall i j t, tree_RE_prime s i j t -> i <= strlen s -> i < j <= strlen s).
Proof.
  assert (T : forall i c, char_at s i = c -> c <> NUL -> i <= strlen s ->
                     i + 1 <= strlen s).
  { intros i c <- Hc Hi. now apply strlen_step. }
  assert (S : forall i, is_symbol_char (char_at s i) = true -> i <= strlen s ->
                   i + 1 <= strlen s).
  { intros i Hc Hi. apply strlen_step; [exact Hi | now apply symbol_not_NUL]. }
  apply tree_mutind; intros;
    repeat match goal with
      | H : char_at s ?i = _ |- _ =>
          assert (i + 1 <= strlen s)
            by (first [ apply (T _ _ H); [discriminate | lia] | lia ]);
          clear H
      | H : is_symbol_char (char_at s ?i) = true |- _ =>
          assert (i + 1 <= strlen s) by (apply S; [exact H | lia]); clear H
      | H : ?i <= strlen s -> _ |- _ =>
          let L := fresh in assert (L : i <= strlen s) by lia;
          specialize (H L); clear L
      end; lia.
Qed.

Lemma drop_terminal s i c :
  char_at s i = c -> c <> NUL -> drop i s = String c (drop (i + 1) s).
Proof. intros <- H. now apply drop_char. Qed.

Lemma tree_yield s :
  (forall i j t, tree_RE s i j t -> drop i s = (yield t ++ drop j s)%string)
  /\ (forall i j t, tree_RE_prime s i j t ->
        drop i s = (yield t ++ drop j s)%string).
Proof.
  apply tree_mutind; intros; cbn;
    repeat match goal with
    | H : char_at s ?i = _ |- _ =>
        apply drop_terminal in H; [|discriminate]
    | H : is_symbol_char (char_at s ?i) = true |- _ =>
        apply symbol_not_NUL, drop_char in H
    end;
    rewrite ?append_empty_r, ?append_assoc_s; cbn; congruence.
Qed.

Lemma tree_yield_length s :
  (forall i j t, tree_RE s i j t -> i + String.length (yield t) = j)
  /\ (forall i j t, tree_RE_prime s i j t -> i + String.length (yield t) = j).
Proof.
  apply tree_mutind; intros; cbn;
    rewrite ?append_empty_r, ?length_append_s; cbn;
    rewrite ?length_append_s; cbn; lia.
Qed.

Lemma tree_lang s :
  (forall i j t, tree_RE s i j t -> lang_RE (yield t))
  /\ (forall i j t, tree_RE_prime s i j t -> lang_RE_prime (yield t)).
Proof.
  apply tree_mutind; intros; cbn; rewrite ?append_empty_r.
  - now apply L_epsilon_RE_prime.
  - now apply L_symbol_RE_prime.
  - now apply L_lpar_RE_rpar_RE_prime.
  - now apply L_lpar_RE_rpar.
  - apply L_epsilon.
  - now apply L_symbol.
  - now apply L_plus_RE_RE_prime.
  - now apply L_plus_RE.
  - now apply L_star_RE_prime.
  - now apply L_RE_RE_prime.
  - now apply L_RE.
  - apply L_star.
Qed.

(** The grammar without left recursion derives nothing that the grammar of
    the heading does not derive: an RE' continues an RE on its right. *)
Lemma lang_RE_source :
  (forall w, lang_RE w -> lang_source w)
  /\ (forall w, lang_RE_prime w ->
        forall u, lang_source u -> lang_source (u ++ w)).
Proof.
  apply lang_mutind.
  - intros w _ IH. apply (IH "#"), S_epsilon.
  - intros c w Hc _ IH. apply (IH (String c "")), S_symbol, Hc.
  - intros w w' _ Hw _ IH.
    replace (String "(" (w ++ String ")" w'))
      with (String "(" (w ++ ")") ++ w')%string
      by (simpl; now rewrite append_assoc_s).
    apply IH, S_par, Hw.
  - intros w _ Hw. apply S_par, Hw.
  - apply S_epsilon.
  - intros c Hc. apply S_symbol, Hc.
  - intros w w' _ Hw _ IH u Hu.
    replace (u ++ String "+" (w ++ w'))%string
      with ((u ++ String "+" w) ++ w')%string
      by (now rewrite append_assoc_s).
    apply IH, S_plus; assumption.
  - intros w _ Hw u Hu. apply S_plus; assumption.
  - intros w _ IH u Hu.
    replace (u ++ String "*" w)%string with ((u ++ "*") ++ w)%string
      by (now rewrite append_assoc_s).
    apply IH, S_star, Hu.
  - intros w w' _ Hw _ IH u Hu. rewrite <- append_assoc_s.
    apply IH, S_concat; assumption.
  - intros w _ Hw u Hu. apply S_concat; assumption.
  - intros u Hu. apply S_star, Hu.
Qed.

Lemma fan_out_ok_leaf c : Forall fan_out_ok (all_nodes (leaf c)).
Proof. repeat constructor. Qed.

Lemma tree_nodes s :
  (forall i j t, tree_RE s i j t ->
     content t = "RE" /\ Forall fan_out_ok (all_nodes t))
  /\ (forall i j t, tree_RE_prime s i j t ->
        content t = "RE'" /\ Forall fan_out_ok (all_nodes t)).
Proof.
  apply tree_mutind; intros; (split; [reflexivity|]);
    repeat match goal with H : _ /\ _ |- _ => destruct H as [_ H] end;
    cbn;
    repeat first
      [ apply Forall_nil_2
      | apply Forall_cons_2; [split; cbn; unfold MAX_CHILDS; lia|]
      | apply Forall_app_2; [assumption|] ].
Qed.

(** ** Every recursive call is on a node with room *)

Lemma has_room_b_true p : has_room p -> has_room_b p = true.
Proof.
  intros H.
  destruct (has_room_inv p H) as [c [->|[[x ->]|[[x [y ->]]|[x [y [z ->]]]]]]];
    reflexivity.
Qed.

Lemma has_room_b_spec p : has_room_b p = true <-> has_room p.
Proof.
  split; [|apply has_room_b_true].
  destruct p as [c cs]. unfold has_room_b. simpl.
  do 5 (destruct cs as [|[?|] cs]; try discriminate); intros _; room.
Qed.

Lemma in_order_agrees D label alts alts' :
  Forall (alt_ok D label) alts ->
  Forall2 (alt_agrees label) alts alts' ->
  alt_agrees label (in_order alts) (in_order alts').
Proof.
  intros Hok H. induction H as [|alt alt' rest rest' Halt _ IH];
    intros lost Hne; simpl in *.
  - reflexivity.
  - apply Forall_cons_1 in Hok. destruct Hok as [Hok Hrest].
    specialize (Halt lost). specialize (Hok lost).
    destruct (alt (leaf label, lost)) as [o st'|st'|];
      try (rewrite Halt by congruence).
    + reflexivity.
    + subst st'. apply IH; assumption.
    + congruence.
Qed.

Lemma production_agrees D label alts alts' p lost r :
  Forall (alt_ok D label) alts ->
  Forall2 (alt_agrees label) alts alts' ->
  production label alts (p, lost) = Some r ->
  production label alts' (p, lost) = Some r.
Proof.
  intros Hok H. unfold production.
  destruct (node_add_child p (node_init node_new label)) as [p' slot].
  pose proof (in_order_agrees D label alts alts' Hok H lost) as A.
  unfold leaf in A.
  destruct (in_order alts _) as [o st'|st'|]; try (rewrite A by congruence);
    congruence.
Qed.

Section AlternativesChecked.

Variable s : string.
Variable idx : nat.
Variables RE_rec RE_prime_rec RE_rec' RE_prime_rec' : nat -> St -> option Result.
Hypothesis RE_rec_ok : call_ok (tree_RE s) RE_rec.
Hypothesis RE_prime_rec_ok : call_ok (tree_RE_prime s) RE_prime_rec.
Hypothesis RE_rec_agrees : agrees RE_rec RE_rec'.
Hypothesis RE_prime_rec_agrees : agrees RE_prime_rec RE_prime_rec'.

Ltac terminal f :=
  unfold f;
  match goal with
  | |- context [if ?b then _ else _] =>
      destruct b; cbn; try (intros _; reflexivity)
  end.

(** The next recursive call: its node has room, so that the assertion
    passes and both sides make the same call. *)
Ltac call H A :=
  match type of H with
  | call_ok _ ?f =>
      match goal with
      | |- context [f ?i (?p, ?l)] =>
          let R := fresh "R" in
          let C := fresh "C" in
          let E := fresh "E" in
          assert (R : has_room p) by room;
          pose proof (H i p l R) as C;
          destruct (f i (p, l)) as [[[?out|] ?st]|] eqn:E;
          [ destruct C as (?t & -> & _) | subst | congruence ];
          rewrite (A _ _ _ _ R E); clear R E;
          cbn; try (intros _; reflexivity)
      end
  end.

Lemma RE_alternatives_checked :
  Forall2 (alt_agrees "RE")
    (RE_alternatives s RE_rec RE_prime_rec idx)
    (RE_alternatives s (checked RE_rec') (checked RE_prime_rec') idx).
Proof.
  unfold RE_alternatives.
  repeat (constructor; [intros lost; unfold checked|]); [..|constructor].
  - unfold RE_epsilon_RE_prime. terminal epsilon.
    call RE_prime_rec_ok RE_prime_rec_agrees.
  - unfold RE_symbol_RE_prime. terminal symbol.
    call RE_prime_rec_ok RE_prime_rec_agrees.
  - unfold RE_lpar_RE_rpar_RE_prime. terminal lpar.
    call RE_rec_ok RE_rec_agrees. terminal rpar.
    call RE_prime_rec_ok RE_prime_rec_agrees.
  - unfold RE_lpar_RE_rpar. terminal lpar. call RE_rec_ok RE_rec_agrees.
  - intros _. reflexivity.
  - intros _. reflexivity.
Qed.

Lemma RE_prime_alternatives_checked :
  Forall2 (alt_agrees "RE'")
    (RE_prime_alternatives s RE_rec RE_prime_rec idx)
    (RE_prime_alternatives s (checked RE_rec') (checked RE_prime_rec') idx).
Proof.
  unfold RE_prime_alternatives.
  repeat (constructor; [intros lost; unfold checked|]); [..|constructor].
  - unfold RE_prime_plus_RE_RE_prime. terminal plus.
    call RE_rec_ok RE_rec_agrees. call RE_prime_rec_ok RE_prime_rec_agrees.
  - unfold RE_prime_plus_RE. terminal plus. call RE_rec_ok RE_rec_agrees.
  - unfold RE_prime_star_RE_prime. terminal star.
    call RE_prime_rec_ok RE_prime_rec_agrees.
  - unfold RE_prime_RE_RE_prime. call RE_rec_ok RE_rec_agrees.
    call RE_prime_rec_ok RE_prime_rec_agrees.
  - unfold RE_prime_RE. call RE_rec_ok RE_rec_agrees.
  - intros _. reflexivity.
Qed.

End AlternativesChecked.

(** No call of [RE] or [RE_prime] that starts on a node with room ever
    reaches a recursive call on a node without room. *)
Lemma RE_checked_agrees fuel s :
  agrees (RE fuel s) (RE_checked fuel s)
  /\ agrees (RE_prime fuel s) (RE_prime_checked fuel s).
Proof.
  induction fuel as [|fuel [IH1 IH2]].
  - split; intros idx p lost r _ H; discriminate H.
  - destruct (RE_ok fuel s) as [H1 H2].
    split; intros idx p lost r Hroom H.
    + change (RE_body s (checked (RE_checked fuel s))
                (checked (RE_prime_checked fuel s)) idx (p, lost) = Some r).
      change (RE_body s (RE fuel s) (RE_prime fuel s) idx (p, lost) = Some r) in H.
      revert H. apply (production_agrees (tree_RE s idx)).
      * apply RE_alternatives_ok; assumption.
      * apply RE_alternatives_checked; assumption.
    + change (RE_prime_body s (checked (RE_checked fuel s))
                (checked (RE_prime_checked fuel s)) idx (p, lost) = Some r).
      change (RE_prime_body s (RE fuel s) (RE_prime fuel s) idx (p, lost)
              = Some r) in H.
      revert H. apply (production_agrees (tree_RE_prime s idx)).
      * apply RE_prime_alternatives_ok; assumption.
      * apply RE_prime_alternatives_checked; assumption.
Qed.

(** ** [parse] *)

Lemma before_terminator s : forall i, i < strlen s -> char_at s i <> NUL.
Proof.
  induction s as [|c s IH]; intros i Hi; simpl in Hi; [lia|].
  destruct (Ascii.eqb c NUL) eqn:E; [lia|].
  destruct i as [|i].
  - apply Ascii.eqb_neq in E. exact E.
  - apply (IH i). lia.
Qed.

Lemma at_terminator s i : i <= strlen s -> char_at s i = NUL -> i = strlen s.
Proof.
  intros Hi Hc. destruct (Nat.eq_dec i (strlen s)) as [|Hne]; [assumption|].
  exfalso. apply (before_terminator s i); [lia | exact Hc].
Qed.

Lemma parse_fuel_mono fuel fuel' s p r :
  fuel <= fuel' -> parse fuel s p = Some r -> parse fuel' s p = Some r.
Proof.
  intros Hle. unfold parse.
  destruct (RE fuel s 0 _) as [[[o|] st]|] eqn:E; [| |discriminate];
    apply (proj1 (RE_fuel_mono s fuel fuel' Hle)) in E; rewrite E; auto.
Qed.

(** The two ways in which [parse] returns: [RE] failed and the root is as
    [node_init] left it, or [RE] attached its tree and the result is the
    test of the character under the final cursor. *)
Lemma parse_cases fuel s p b st :
  parse fuel s p = Some (b, st) ->
  (RE fuel s 0 (node_init p "Root", []) = Some (None, st)
   /\ b = false /\ st = (node_init p "Root", []))
  \/ (exists idx_out t,
        RE fuel s 0 (node_init p "Root", []) = Some (Some idx_out, st)
        /\ st = (mkNode "Root" [Some t; None; None; None], [])
        /\ tree_RE s 0 idx_out t
        /\ idx_out <= strlen s
        /\ b = Ascii.eqb (char_at s idx_out) NUL).
Proof.
  unfold parse. intros H.
  pose proof (proj1 (RE_ok fuel s) 0 (node_init p "Root") []
                (has_room_leaf "Root")) as C.
  destruct (RE fuel s 0 _) as [[[o|] st1]|]; [| |discriminate].
  - right. destruct C as (t & -> & D). injection H as <- <-.
    exists o, t. repeat split; try assumption.
    apply (proj1 (tree_bounds s)) in D; lia.
  - left. injection H as <- <-. auto.
Qed.

Lemma parse_accepts fuel s p st :
  parse fuel s p = Some (true, st) ->
  exists t,
    RE fuel s 0 (node_init p "Root", []) = Some (Some (strlen s), st)
    /\ st = (mkNode "Root" [Some t; None; None; None], [])
    /\ tree_RE s 0 (strlen s) t.
Proof.
  intros H. apply parse_cases in H.
  destruct H as [(_ & H & _)|(o & t & E & -> & D & Hle & Hb)]; [discriminate|].
  symmetry in Hb. apply Ascii.eqb_eq, at_terminator in Hb; [|exact Hle].
  subst o. eauto.
Qed.

(** C1, as stated, asks that parse("ab") fail.  The grammar has the
    concatenation RE' -> RE, and [parse] accepts "ab". *)
Lemma parse_ab_accepted :
  parse 5 "ab" node_new = Some (true, (tree_ab, []))
  /\ ~ (forall fuel p b st, parse fuel "ab" p = Some (b, st) -> b = false).
Proof.
  assert (E : parse 5 "ab" node_new = Some (true, (tree_ab, [])))
    by (vm_compute; reflexivity).
  split; [exact E|]. intros H. specialize (H _ _ _ _ E). discriminate H.
Qed.

(** C1 (amended): [parse] returns true only if the derivation consumes the
    whole input, that is, [RE] returned true with the final cursor on the
    terminating NUL; both parse("ab") and parse("a+b") succeed. *)
Theorem parse_consumes_whole_input :
  (forall fuel s p st,
     parse fuel s p = Some (true, st) ->
     RE fuel s 0 (node_init p "Root", []) = Some (Some (strlen s), st)
     /\ char_at s (strlen s) = NUL)
  /\ (forall fuel p, parse (5 + fuel) "ab" p = Some (true, (tree_ab, [])))
  /\ (forall fuel p, parse (5 + fuel) "a+b" p = Some (true, (tree_a_plus_b, []))).
Proof.
  split; [|split].
  - intros fuel s p st H. apply parse_accepts in H.
    destruct H as (t & E & _). split; [exact E | apply char_at_strlen].
  - intros fuel p. apply (parse_fuel_mono 5); [lia | vm_compute; reflexivity].
  - intros fuel p. apply (parse_fuel_mono 5); [lia | vm_compute; reflexivity].
Qed.

(** [parse_consumes_whole_input] on "a+b". *)
Lemma parse_consumes_whole_input_witness :
  parse 5 "a+b" node_new = Some (true, (tree_a_plus_b, []))
  /\ RE 5 "a+b" 0 (node_init node_new "Root", [])
     = Some (Some (strlen "a+b"), (tree_a_plus_b, []))
  /\ char_at "a+b" (strlen "a+b") = NUL.
Proof.
  split; [vm_compute; reflexivity|].
  apply (proj1 parse_consumes_whole_input 5 "a+b" node_new).
  vm_compute; reflexivity.
Defined.

(** C2, as stated, lets a "#" leaf count for the empty string.  The "#" of
    the tree is the character '#' of the input: for the input "#" the
    leaves then spell the empty string, not the input. *)
Lemma yield_hash_empty_loses_hash :
  parse 3 "#" node_new = Some (true, (tree_hash, []))
  /\ yield_hash_empty tree_hash = ""
  /\ c_string "#" = "#"
  /\ ~ (forall fuel s p t lost,
          parse fuel s p = Some (true, (t, lost)) ->
          yield_hash_empty t = c_string s).
Proof.
  assert (E : parse 3 "#" node_new = Some (true, (tree_hash, [])))
    by (vm_compute; reflexivity).
  split; [exact E|]. split; [vm_compute; reflexivity|].
  split; [reflexivity|].
  intros H. specialize (H _ _ _ _ _ E). vm_compute in H. discriminate H.
Qed.

(** The leaves of the tree of an accepted input spell the input. *)
Lemma accepted_yield fuel s p t lost :
  parse fuel s p = Some (true, (t, lost)) ->
  yield t = c_string s.
Proof.
  intros H. apply parse_accepts in H. destruct H as (t' & _ & [= -> ->] & D).
  pose proof (proj1 (tree_yield s) _ _ _ D) as Hy.
  pose proof (proj1 (tree_yield_length s) _ _ _ D) as Hl.
  simpl in Hy, Hl. unfold c_string.
  cbn. rewrite append_empty_r.
  rewrite Hy at 2. rewrite <- Hl. now rewrite take_append_length.
Qed.

(** C2 (amended): for every input that [parse] accepts, the labels of the
    leaves of the tree, read from left to right, every leaf contributing its
    label (a "#" leaf the character '#'), spell exactly the input string. *)
Theorem parse_yield fuel s p t lost :
  parse fuel s p = Some (true, (t, lost)) ->
  yield t = c_string s.
Proof. apply accepted_yield. Qed.

(** [parse_yield] on "a+b". *)
Lemma parse_yield_witness :
  parse 5 "a+b" node_new = Some (true, (tree_a_plus_b, []))
  /\ yield tree_a_plus_b = "a+b".
Proof.
  split; [vm_compute; reflexivity|].
  apply (parse_yield 5 "a+b" node_new tree_a_plus_b []).
  vm_compute; reflexivity.
Defined.

(** The first alternative of a production that returns is the one that
    decides: the alternatives before it have fallen through. *)
Lemma in_order_first alts : forall st idx_out st',
  in_order alts st = Return idx_out st' ->
  exists pre alt post st1,
    alts = pre ++ alt :: post
    /\ in_order pre st = Next st1
    /\ alt st1 = Return idx_out st'.
Proof.
  induction alts as [|a rest IH]; intros st o st' H; simpl in H.
  - discriminate.
  - destruct (a st) as [o1 st1|st1|] eqn:E.
    + exists [], a, rest, st. injection H as <- <-. auto.
    + destruct (IH _ _ _ H) as (pre & alt & post & st2 & -> & Hpre & Halt).
      exists (a :: pre), alt, post, st2. simpl. rewrite E. auto.
    + discriminate.
Qed.

(** C5: parse("a*") succeeds with the tree RE(a, RE'( * )): in RE the
    alternative symbol RE' returns, and in the inner RE' the five
    alternatives listed before the single star fall through and the single
    star returns.  In any production the alternative that returns is the
    first one in the order of the list that succeeds. *)
Theorem parse_a_star_first_match :
  (forall fuel p, parse (4 + fuel) "a*" p = Some (true, (tree_a_star, [])))
  /\ (forall fuel,
        RE_symbol_RE_prime "a*" (RE_prime (3 + fuel) "a*") 0 (leaf "RE", [])
        = Return 2 (mkNode "RE"
                      [Some (leaf "a");
                       Some (mkNode "RE'" [Some (leaf "*"); None; None; None]);
                       None; None], []))
  /\ (forall fuel,
        in_order
          (firstn 5 (RE_prime_alternatives "a*"
                       (RE (2 + fuel) "a*") (RE_prime (2 + fuel) "a*") 1))
          (leaf "RE'", [])
        = Next (leaf "RE'", [])
        /\ RE_prime_star "a*" 1 (leaf "RE'", [])
           = Return 2 (mkNode "RE'" [Some (leaf "*"); None; None; None], []))
  /\ (forall alts st idx_out st',
        in_order alts st = Return idx_out st' ->
        exists pre alt post st1,
          alts = pre ++ alt :: post
          /\ in_order pre st = Next st1
          /\ alt st1 = Return idx_out st').
Proof.
  split; [|split; [|split]].
  - intros fuel p. apply (parse_fuel_mono 4); [lia | vm_compute; reflexivity].
  - intros fuel. reflexivity.
  - intros fuel. split; reflexivity.
  - intros alts. apply in_order_first.
Qed.

(** The alternative that returns in the RE' of "a*", found by
    [parse_a_star_first_match]. *)
Lemma parse_a_star_first_match_witness :
  in_order (RE_prime_alternatives "a*" (RE 2 "a*") (RE_prime 2 "a*") 1)
    (leaf "RE'", [])
  = Return 2 (mkNode "RE'" [Some (leaf "*"); None; None; None], [])
  /\ exists pre alt post st1,
       RE_prime_alternatives "a*" (RE 2 "a*") (RE_prime 2 "a*") 1
       = pre ++ alt :: post
       /\ in_order pre (leaf "RE'", []) = Next st1
       /\ alt st1
          = Return 2 (mkNode "RE'" [Some (leaf "*"); None; None; None], []).
Proof.
  split; [reflexivity|].
  apply (proj2 (proj2 (proj2 parse_a_star_first_match))).
  reflexivity.
Defined.

(** C6: on every successful parse the node labelled "Root" has exactly one
    attached child, the node of the top-level RE; parse("#") succeeds and
    the single child of that RE node is a leaf labelled "#". *)
Theorem parse_root_single_child :
  (forall fuel s p root lost,
     parse fuel s p = Some (true, (root, lost)) ->
     exists t,
       root = mkNode "Root" [Some t; None; None; None]
       /\ attached (childs root) = [t]
       /\ content t = "RE"
       /\ tree_RE s 0 (strlen s) t)
  /\ (forall fuel p, parse (3 + fuel) "#" p = Some (true, (tree_hash, [])))
  /\ attached (childs tree_hash) = [mkNode "RE" [Some (leaf "#"); None; None; None]]
  /\ is_leaf (childs (leaf "#")) = true.
Proof.
  split; [|split; [|split]].
  - intros fuel s p root lost H. apply parse_accepts in H.
    destruct H as (t & _ & [= -> ->] & D). exists t.
    repeat split; [| exact D].
    apply (proj1 (tree_nodes s) _ _ _ D).
  - intros fuel p. apply (parse_fuel_mono 3); [lia | vm_compute; reflexivity].
  - reflexivity.
  - reflexivity.
Qed.

(** [parse_root_single_child] on "#". *)
Lemma parse_root_single_child_witness :
  parse 3 "#" node_new = Some (true, (tree_hash, []))
  /\ exists t,
       tree_hash = mkNode "Root" [Some t; None; None; None]
       /\ attached (childs tree_hash) = [t]
       /\ content t = "RE"
       /\ tree_RE "#" 0 (strlen "#") t.
Proof.
  split; [vm_compute; reflexivity|].
  apply (proj1 parse_root_single_child 3 "#" node_new tree_hash []).
  vm_compute; reflexivity.
Defined.

Lemma parse_total s p fuel :
  enough_fuel s <= fuel -> exists b st, parse fuel s p = Some (b, st).
Proof.
  intros Hfuel. unfold enough_fuel in Hfuel. unfold parse.
  pose proof (proj1 (RE_total_from s fuel 0) ltac:(lia) 0
                (node_init p "Root", []) ltac:(lia)) as T.
  destruct (RE fuel s 0 _) as [[[o|] st]|]; [eauto | eauto | contradiction].
Qed.

(** C7: for an input that is not in the language of the grammar (in
    either form given in the heading of the source file), [parse] returns,
    and what it returns is the boolean false; parse("") and parse("(a")
    return false. *)
Theorem parse_rejects_outside_language :
  (forall s p fuel,
     ~ lang_RE (c_string s) ->
     enough_fuel s <= fuel ->
     exists st, parse fuel s p = Some (false, st))
  /\ (forall s p fuel,
        ~ lang_source (c_string s) ->
        enough_fuel s <= fuel ->
        exists st, parse fuel s p = Some (false, st))
  /\ (forall fuel p, parse (1 + fuel) "" p = Some (false, (root_empty, [])))
  /\ (forall fuel p, parse (5 + fuel) "(a" p = Some (false, (root_empty, []))).
Proof.
  assert (A : forall s p fuel,
             ~ lang_RE (c_string s) ->
             enough_fuel s <= fuel ->
             exists st, parse fuel s p = Some (false, st)).
  { intros s p fuel Hnot Hfuel.
    destruct (parse_total s p fuel Hfuel) as ([|] & [t lost] & H); [|eauto].
    exfalso. apply Hnot. rewrite <- (accepted_yield _ _ _ _ _ H).
    apply parse_accepts in H. destruct H as (t' & _ & [= -> ->] & D).
    cbn. rewrite append_empty_r. apply (proj1 (tree_lang s) _ _ _ D). }
  split; [exact A|]. split; [|split].
  - intros s p fuel Hnot. apply A. intros H. apply Hnot.
    apply (proj1 lang_RE_source), H.
  - intros fuel p. apply (parse_fuel_mono 1); [lia | vm_compute; reflexivity].
  - intros fuel p. apply (parse_fuel_mono 5); [lia | vm_compute; reflexivity].
Qed.

(** [parse_rejects_outside_language] on the empty input. *)
Lemma parse_rejects_outside_language_witness :
  ~ lang_RE (c_string "")
  /\ enough_fuel "" <= 1
  /\ exists st, parse 1 "" node_new = Some (false, st).
Proof.
  assert (H : ~ lang_RE (c_string "")) by (intros H; inversion H).
  split; [exact H|]. split; [vm_compute; lia|].
  apply (proj1 parse_rejects_outside_language "" node_new 1 H).
  vm_compute; lia.
Defined.

(** C8: [RE], [RE_prime] and [parse] return for every input.  A call that
    succeeds has consumed at least one character and has not passed the
    terminator.  The body of [RE] needs its callees only behind its own
    position, the body of [RE_prime] needs [RE] at its own position and
    [RE_prime] behind it; so a depth of calls of twice the number of
    remaining characters, plus one for [RE] and two for [RE_prime], is never
    exceeded. *)
Theorem parse_terminates s :
  (forall idx st fuel,
     idx <= strlen s ->
     2 * (strlen s - idx) + 1 <= fuel ->
     exists r st', RE fuel s idx st = Some (r, st')
       /\ forall idx_out, r = Some idx_out -> idx < idx_out <= strlen s)
  /\ (forall idx st fuel,
        idx <= strlen s ->
        2 * (strlen s - idx) + 2 <= fuel ->
        exists r st', RE_prime fuel s idx st = Some (r, st')
          /\ forall idx_out, r = Some idx_out -> idx < idx_out <= strlen s)
  /\ (forall p fuel,
        2 * strlen s + 1 <= fuel ->
        exists b st, parse fuel s p = Some (b, st))
  /\ (forall idx RE_rec RE_prime_rec st,
        idx <= strlen s ->
        call_total s (idx + 1) RE_rec ->
        call_total s (idx + 1) RE_prime_rec ->
        RE_body s RE_rec RE_prime_rec idx st <> None)
  /\ (forall idx RE_rec RE_prime_rec st,
        idx <= strlen s ->
        call_total s idx RE_rec ->
        call_total s (idx + 1) RE_prime_rec ->
        RE_prime_body s RE_rec RE_prime_rec idx st <> None).
Proof.
  split; [|split; [|split; [|split]]].
  - intros idx st fuel Hidx Hfuel.
    pose proof (proj1 (RE_total_from s fuel idx) Hfuel idx st ltac:(lia)) as T.
    destruct (RE fuel s idx st) as [[[o|] st']|]; [| |contradiction].
    + exists (Some o), st'. split; [reflexivity|]. now intros ? [= <-].
    + exists None, st'. split; [reflexivity|]. discriminate.
  - intros idx st fuel Hidx Hfuel.
    pose proof (proj2 (RE_total_from s fuel idx) Hfuel idx st ltac:(lia)) as T.
    destruct (RE_prime fuel s idx st) as [[[o|] st']|]; [| |contradiction].
    + exists (Some o), st'. split; [reflexivity|]. now intros ? [= <-].
    + exists None, st'. split; [reflexivity|]. discriminate.
  - intros p fuel Hfuel. now apply parse_total.
  - intros idx f g st Hidx H1 H2 E.
    pose proof (RE_body_total s idx f g st Hidx H1 H2) as T.
    now rewrite E in T.
  - intros idx f g st Hidx H1 H2 E.
    pose proof (RE_prime_body_total s idx f g st Hidx H1 H2) as T.
    now rewrite E in T.
Qed.

(** [parse_terminates] on "(a+b)*c". *)
Lemma parse_terminates_witness :
  2 * strlen "(a+b)*c" + 1 <= 15
  /\ exists b st, parse 15 "(a+b)*c" node_new = Some (b, st).
Proof.
  split; [vm_compute; lia|].
  apply (proj1 (proj2 (proj2 (parse_terminates "(a+b)*c"))) node_new 15).
  vm_compute; lia.
Defined.

(** C8, as stated, bounds the depth of the recursion by the length of the
    input.  On "ab", of length 2, the calls nest five deep ([RE] at 0,
    [RE_prime] at 1, [RE] at 1, [RE_prime] at 2, [RE] at 2): with a depth
    of 2, and still with a depth of 4, [parse] is cut off before it
    returns; the depth of [parse_terminates], 2 * 2 + 1, is reached. *)
Example depth_ab :
  strlen "ab" = 2
  /\ parse 2 "ab" node_new = None
  /\ parse 4 "ab" node_new = None
  /\ parse 5 "ab" node_new = Some (true, (tree_ab, []))
  /\ ~ (forall s fuel, strlen s <= fuel -> parse fuel s node_new <> None).
Proof.
  assert (E : parse 2 "ab" node_new = None) by (vm_compute; reflexivity).
  split; [reflexivity|]. split; [exact E|].
  split; [vm_compute; reflexivity|]. split; [vm_compute; reflexivity|].
  intros H. apply (H "ab" 2); [cbn; lia | exact E].
Qed.

(** C9: whatever [parse] returns, no node was left unattached (every call
    of [node_add_child] found an empty slot: [lost] only ever grows, and it
    is empty at the end) and every node of the tree has its [MAX_CHILDS]
    slots and at most [MAX_CHILDS] attached children.  The same holds for
    every call of [RE] and [RE_prime] on a node with an empty slot; and
    [parse] returns the same with an assertion at every call of [RE] and
    [RE_prime] that the node it is given has an empty slot. *)
Theorem parse_never_drops_child :
  (forall fuel s p b root lost,
     parse fuel s p = Some (b, (root, lost)) ->
     lost = [] /\ Forall fan_out_ok (all_nodes root))
  /\ (forall fuel s idx p lost r p' lost',
        has_room p ->
        RE fuel s idx (p, lost) = Some (r, (p', lost')) ->
        lost' = lost)
  /\ (forall fuel s idx p lost r p' lost',
        has_room p ->
        RE_prime fuel s idx (p, lost) = Some (r, (p', lost')) ->
        lost' = lost)
  /\ (forall fuel s p r,
        parse fuel s p = Some r -> parse_checked fuel s p = Some r).
Proof.
  split; [|split; [|split]].
  - intros fuel s p b root lost H. apply parse_cases in H.
    destruct H as [(_ & _ & [= -> ->])|(o & t & _ & [= -> ->] & D & _)].
    + split; [reflexivity|]. repeat constructor.
    + split; [reflexivity|]. cbn. rewrite app_nil_r.
      apply Forall_cons_2; [split; cbn; unfold MAX_CHILDS; lia|].
      apply (proj1 (tree_nodes s) _ _ _ D).
  - intros fuel s idx p lost r p' lost' Hroom H.
    pose proof (proj1 (RE_ok fuel s) idx p lost Hroom) as C.
    rewrite H in C. destruct r as [o|].
    + destruct C as (t & [= _ ->] & _). reflexivity.
    + now injection C as _ ->.
  - intros fuel s idx p lost r p' lost' Hroom H.
    pose proof (proj2 (RE_ok fuel s) idx p lost Hroom) as C.
    rewrite H in C. destruct r as [o|].
    + destruct C as (t & [= _ ->] & _). reflexivity.
    + now injection C as _ ->.
  - intros fuel s p r. unfold parse, parse_checked, checked.
    change (node_init p "Root") with (leaf "Root"). cbn [fst].
    rewrite (has_room_b_true _ (has_room_leaf "Root")).
    destruct (RE fuel s 0 _) as [r'|] eqn:E; [|discriminate].
    apply (proj1 (RE_checked_agrees fuel s) _ _ _ _ (has_room_leaf "Root")) in E.
    rewrite E. auto.
Qed.

(** [parse_never_drops_child] on "(a)*", whose RE node has four children. *)
Lemma parse_never_drops_child_witness :
  parse 9 "(a)*" node_new = Some (true, (tree_par_a_star, []))
  /\ (@nil Node = [] /\ Forall fan_out_ok (all_nodes tree_par_a_star)).
Proof.
  split; [vm_compute; reflexivity|].
  apply (proj1 parse_never_drops_child 9 "(a)*" node_new true).
  vm_compute; reflexivity.
Defined.

(** C10, as stated, has the root empty whenever [parse] returns false.  On
    "a)" the top-level [RE] succeeds on the prefix "a" and [parse] returns
    false because of the character left over: the RE node stays attached to
    the root. *)
Lemma parse_false_root_not_empty :
  parse 3 "a)" node_new = Some (false, (tree_a, []))
  /\ child_at tree_a 0 = Some (mkNode "RE" [Some (leaf "a"); None; None; None])
  /\ ~ (forall fuel s p root lost,
          parse fuel s p = Some (false, (root, lost)) ->
          childs root = [None; None; None; None]).
Proof.
  assert (E : parse 3 "a)" node_new = Some (false, (tree_a, [])))
    by (vm_compute; reflexivity).
  split; [exact E|]. split; [reflexivity|].
  intros H. specialize (H _ _ _ _ _ E). discriminate H.
Qed.

(** C10 (amended): if [parse] returns false because the top-level [RE]
    returned false, the root has all its slots NULL on return.  Otherwise
    [RE] returned true before the end of the input and the root still holds
    the RE node.  In both cases [node_free_childs], the caller's cleanup,
    leaves every slot NULL. *)
Theorem parse_false_root fuel s p root lost :
  parse fuel s p = Some (false, (root, lost)) ->
  (RE fuel s 0 (node_init p "Root", []) = Some (None, (root, lost))
   /\ childs root = [None; None; None; None]
   /\ fst (node_free_childs root) = root_empty)
  \/ (exists idx_out t,
        RE fuel s 0 (node_init p "Root", []) = Some (Some idx_out, (root, lost))
        /\ char_at s idx_out <> NUL
        /\ childs root = [Some t; None; None; None]
        /\ node_free_childs root = (root_empty, [t])).
Proof.
  intros H. apply parse_cases in H.
  destruct H as [(E & _ & [= -> ->])|(o & t & E & [= -> ->] & _ & _ & Hb)].
  - left. repeat split. exact E.
  - right. exists o, t. repeat split; [exact E|].
    symmetry in Hb. now apply Ascii.eqb_neq in Hb.
Qed.

(** [parse_false_root] on "(a", where the top-level [RE] returns false. *)
Lemma parse_false_root_witness :
  parse 5 "(a" node_new = Some (false, (root_empty, []))
  /\ childs root_empty = [None; None; None; None].
Proof.
  split; [vm_compute; reflexivity|].
  destruct (parse_false_root 5 "(a" node_new root_empty [])
    as [(_ & H & _)|(o & t & _ & _ & H & _)].
  - vm_compute; reflexivity.
  - exact H.
  - discriminate H.
Defined.

(** ** Rollback *)

(** An alternative that is reached inside a production runs on the empty
    node of the variable, and leaves it so when it falls through. *)
Lemma alternative_reached D label alts : forall pre alt post lost st1,
  Forall (alt_ok D label) alts ->
  alts = pre ++ alt :: post ->
  in_order pre (leaf label, lost) = Next st1 ->
  st1 = (leaf label, lost) /\ alt_ok D label alt.
Proof.
  intros pre alt post lost st1 Hall -> Hpre.
  apply Forall_app in Hall. destruct Hall as [Hp Ha].
  apply Forall_cons_1 in Ha. destruct Ha as [Ha _].
  pose proof (in_order_ok D label pre Hp lost) as C.
  rewrite Hpre in C. auto.
Qed.

(** C3: when [RE] or [RE_prime], called on a node that has an empty slot
    after a contiguous prefix of children, returns false, the caller's node
    and the list of unattached nodes are exactly what they were before the
    call; whenever an alternative of [RE] or [RE_prime] is reached and falls
    through, the node of the variable is exactly what it was when the
    alternative began; and the condition on the node, which the root
    satisfies, holds at every recursive call: the result is the same with
    the assertion at every call. *)
Theorem failure_restores_tree fuel s idx :
  (forall p lost st',
     has_room p ->
     RE fuel s idx (p, lost) = Some (None, st') -> st' = (p, lost))
  /\ (forall p lost st',
        has_room p ->
        RE_prime fuel s idx (p, lost) = Some (None, st') -> st' = (p, lost))
  /\ (forall pre alt post lost st1 st2,
        RE_alternatives s (RE fuel s) (RE_prime fuel s) idx = pre ++ alt :: post ->
        in_order pre (leaf "RE", lost) = Next st1 ->
        alt st1 = Next st2 ->
        st2 = st1)
  /\ (forall pre alt post lost st1 st2,
        RE_prime_alternatives s (RE fuel s) (RE_prime fuel s) idx
        = pre ++ alt :: post ->
        in_order pre (leaf "RE'", lost) = Next st1 ->
        alt st1 = Next st2 ->
        st2 = st1)
  /\ (forall p lost r,
        has_room p ->
        RE fuel s idx (p, lost) = Some r ->
        RE_checked fuel s idx (p, lost) = Some r)
  /\ (forall p lost r,
        has_room p ->
        RE_prime fuel s idx (p, lost) = Some r ->
        RE_prime_checked fuel s idx (p, lost) = Some r)
  /\ (forall p, has_room (node_init p "Root")).
Proof.
  destruct (RE_ok fuel s) as [H1 H2].
  split; [|split; [|split; [|split; [|split; [|split]]]]].
  - intros p lost st' Hroom H. specialize (H1 idx p lost Hroom).
    now rewrite H in H1.
  - intros p lost st' Hroom H. specialize (H2 idx p lost Hroom).
    now rewrite H in H2.
  - intros pre alt post lost st1 st2 Halts Hpre Halt.
    destruct (alternative_reached _ _ _ _ _ _ _ st1
                (RE_alternatives_ok s _ _ H1 H2 idx) Halts Hpre) as [-> Hok].
    specialize (Hok lost). now rewrite Halt in Hok.
  - intros pre alt post lost st1 st2 Halts Hpre Halt.
    destruct (alternative_reached _ _ _ _ _ _ _ st1
                (RE_prime_alternatives_ok s _ _ H1 H2 idx) Halts Hpre)
      as [-> Hok].
    specialize (Hok lost). now rewrite Halt in Hok.
  - intros p lost r. apply (proj1 (RE_checked_agrees fuel s)).
  - intros p lost r. apply (proj2 (RE_checked_agrees fuel s)).
  - intros p. apply (has_room_leaf "Root").
Qed.

(** [failure_restores_tree] on the call of [RE_prime] behind the "a" of
    "a)". *)
Lemma failure_restores_tree_witness :
  has_room node_RE_a
  /\ RE_prime 3 "a)" 1 (node_RE_a, []) = Some (None, (node_RE_a, []))
  /\ (node_RE_a, @nil Node) = (node_RE_a, []).
Proof.
  assert (R : has_room node_RE_a) by room.
  split; [exact R|]. split; [vm_compute; reflexivity|].
  apply (proj1 (proj2 (failure_restores_tree 3 "a)" 1)) node_RE_a [] _ R).
  vm_compute; reflexivity.
Defined.


(** From n = 1 on the loop does what is asked of it, and the parser
    passes 1, 2 or 3: for a node with its [MAX_CHILDS] slots and for
    1 <= n <= the number of its attached children,
    [node_free_last_childs] hands to [node_free] exactly the last [n]
    attached children (going down from the highest slot and skipping the
    empty ones), clears their slots and leaves the earlier children where
    they are. *)
Theorem node_free_last_childs_exact p n :
  length (childs p) = MAX_CHILDS ->
  (1 <= n)%Z ->
  (n <= Z.of_nat (length (attached (childs p))))%Z ->
  last_n_freed p (Z.to_nat n) (node_free_last_childs p n).
Proof.
  destruct p as [c cs]. simpl. intros Hlen Hn1 Hn.
  do 5 (destruct cs as [|? cs]; try discriminate Hlen). clear Hlen.
  assert (Hcases : n = 1%Z \/ n = 2%Z \/ n = 3%Z \/ n = 4%Z).
  { assert (length (attached [o; o0; o1; o2]) <= 4); [|lia].
    destruct o, o0, o1, o2; cbn; lia. }
  destruct o, o0, o1, o2; cbn in Hn;
    destruct Hcases as [-> | [-> | [-> | ->]]]; try lia;
    first [ exists 0; split; reflexivity
          | exists 1; split; reflexivity
          | exists 2; split; reflexivity
          | exists 3; split; reflexivity
          | exists 4; split; reflexivity ].
Qed.

(** [node_free_last_childs_exact] on the rollback of three children of a
    full node. *)
Lemma node_free_last_childs_exact_witness :
  length (childs node_RE_full) = MAX_CHILDS
  /\ (1 <= 3)%Z
  /\ (3 <= Z.of_nat (length (attached (childs node_RE_full))))%Z
  /\ last_n_freed node_RE_full (Z.to_nat 3) (node_free_last_childs node_RE_full 3).
Proof.
  split; [reflexivity|]. split; [lia|]. split; [cbn; lia|].
  apply (node_free_last_childs_exact node_RE_full 3); [reflexivity | lia | cbn; lia].
Defined.

(** ** The rest of the tree store *)

Lemma node_add_child_from_spec p c : forall k i p' slot,
  (forall j, j < i -> child_at p j <> None) ->
  node_add_child_from k i p c = (p', slot) ->
  match slot with
  | Some x =>
      i <= x < i + k
      /\ child_at p x = None
      /\ (forall j, j < x -> child_at p j <> None)
      /\ p' = set_child p x (Some c)
  | None => p' = p /\ forall j, j < i + k -> child_at p j <> None
  end.
Proof.
  induction k as [|k IH]; intros i p' slot Hbelow H; simpl in H.
  - injection H as <- <-. split; [reflexivity|].
    intros j Hj. apply Hbelow. lia.
  - destruct (child_at p i) as [x|] eqn:E.
    + apply IH in H.
      * destruct slot as [y|].
        -- destruct H as (Hy & H1 & H2 & H3). repeat split; try assumption; lia.
        -- destruct H as [H1 H2]. split; [exact H1|].
           intros j Hj. apply H2. lia.
      * intros j Hj. destruct (Nat.eq_dec j i) as [->|Hne].
        -- rewrite E. discriminate.
        -- apply Hbelow. lia.
    + injection H as <- <-. repeat split; try assumption; lia.
Qed.

(** X1: [node_add_child] stores the child in the lowest empty slot and
    touches nothing else; when the [MAX_CHILDS] slots are all occupied the
    node is returned as it was and the child is stored nowhere. *)
Theorem node_add_child_lowest_empty p c p' slot :
  node_add_child p c = (p', slot) ->
  match slot with
  | Some x =>
      x < MAX_CHILDS
      /\ child_at p x = None
      /\ (forall j, j < x -> child_at p j <> None)
      /\ p' = set_child p x (Some c)
  | None => p' = p /\ forall j, j < MAX_CHILDS -> child_at p j <> None
  end.
Proof.
  intros H. apply node_add_child_from_spec in H; [|intros j Hj; lia].
  destruct slot as [x|]; [|exact H].
  destruct H as (Hx & H1 & H2 & H3). repeat split; try assumption. lia.
Qed.

(** [node_add_child_lowest_empty] on a node with a gap in slot 1. *)
Lemma node_add_child_lowest_empty_witness :
  node_add_child node_gap (leaf "a")
  = (mkNode "RE" [Some (leaf "("); Some (leaf "a"); Some (leaf ")"); None], Some 1)
  /\ (1 < MAX_CHILDS
      /\ child_at node_gap 1 = None
      /\ (forall j, j < 1 -> child_at node_gap j <> None)
      /\ mkNode "RE" [Some (leaf "("); Some (leaf "a"); Some (leaf ")"); None]
         = set_child node_gap 1 (Some (leaf "a"))).
Proof.
  split; [reflexivity|].
  apply (node_add_child_lowest_empty node_gap (leaf "a") _ (Some 1)).
  reflexivity.
Defined.

(** Induction on a tree: a node, given the property for the children in
    its slots. *)
Lemma Node_ind_slots (P : Node -> Prop) :
  (forall c cs, (forall n, In (Some n) cs -> P n) -> P (mkNode c cs)) ->
  forall n, P n.
Proof.
  intros H. fix IH 1. intros [c cs]. apply H.
  induction cs as [|[m|] cs IHcs]; intros n Hin; simpl in Hin.
  - contradiction.
  - destruct Hin as [E|Hin]; [injection E as <-; apply IH | apply IHcs, Hin].
  - destruct Hin as [E|Hin]; [discriminate E | apply IHcs, Hin].
Qed.

Lemma node_free_all_nodes t : Permutation (node_free t) (all_nodes t).
Proof.
  induction t as [c cs IH] using Node_ind_slots.
  simpl. rewrite <- Permutation_cons_append. apply perm_skip.
  induction cs as [|[m|] cs IHcs]; simpl.
  - constructor.
  - apply Permutation_app.
    + apply IH. now left.
    + apply IHcs. intros n Hn. apply IH. now right.
  - apply IHcs. intros n Hn. apply IH. now right.
Qed.

Lemma node_free_last t : exists l, node_free t = l ++ [t].
Proof. destruct t as [c cs]. simpl. eauto. Qed.

(** X2: [node_free] releases every node of the tree it is given exactly
    once (the released nodes are the nodes of the tree, in another order),
    and a node is released after everything below it: the root comes
    last. *)
Theorem node_free_releases_tree t :
  Permutation (node_free t) (all_nodes t)
  /\ length (node_free t) = length (all_nodes t)
  /\ exists l, node_free t = l ++ [t].
Proof.
  split; [apply node_free_all_nodes|]. split; [|apply node_free_last].
  apply Permutation_length, node_free_all_nodes.
Qed.

(** X3: on a node with its [MAX_CHILDS] slots, [node_free_childs] hands
    every attached child to [node_free], lowest slot first, and leaves every
    slot NULL; the subtrees released are all the nodes below the node; a
    second call finds nothing to free. *)
Theorem node_free_childs_clears p :
  length (childs p) = MAX_CHILDS ->
  node_free_childs p
  = (mkNode (content p) (replicate MAX_CHILDS None), attached (childs p))
  /\ Permutation (p :: flat_map node_free (snd (node_free_childs p)))
       (all_nodes p)
  /\ node_free_childs (fst (node_free_childs p))
     = (fst (node_free_childs p), []).
Proof.
  destruct p as [c cs]. intros Hlen. simpl in Hlen.
  do 5 (destruct cs as [|? cs]; try discriminate Hlen). clear Hlen.
  assert (E : node_free_childs (mkNode c [o; o0; o1; o2])
              = (mkNode c (replicate MAX_CHILDS None),
                 attached [o; o0; o1; o2]))
    by (destruct o, o0, o1, o2; reflexivity).
  rewrite E. split; [reflexivity|]. split; [|reflexivity].
  cbn [snd]. apply perm_skip.
  destruct o, o0, o1, o2; cbn [attached omap list_omap id flat_map];
    rewrite ?app_nil_r;
    repeat (apply Permutation_app; [apply node_free_all_nodes|]);
    try apply node_free_all_nodes; try constructor.
Qed.

(** [node_free_childs_clears] on the RE node of "(a)*". *)
Lemma node_free_childs_clears_witness :
  length (childs node_RE_full) = MAX_CHILDS
  /\ node_free_childs node_RE_full
     = (mkNode "RE" [None; None; None; None], attached (childs node_RE_full)).
Proof.
  split; [reflexivity|].
  apply (node_free_childs_clears node_RE_full). reflexivity.
Defined.

(** X4: outside its precondition, [node_free_last_childs] does not stop
    early: with [n] negative, or greater than the number of attached
    children, it frees every attached child, highest slot first, and leaves
    every slot NULL; with [n = 0] and the highest slot empty it frees
    nothing. *)
Theorem node_free_last_childs_out_of_range p n :
  length (childs p) = MAX_CHILDS ->
  ((n < 0 \/ Z.of_nat (length (attached (childs p))) < n)%Z ->
   node_free_last_childs p n
   = (mkNode (content p) (replicate MAX_CHILDS None),
      rev (attached (childs p))))
  /\ (n = 0%Z -> child_at p (MAX_CHILDS - 1) = None ->
      node_free_last_childs p n = (p, [])).
Proof.
  destruct p as [c cs]. intros Hlen. simpl in Hlen.
  do 5 (destruct cs as [|? cs]; try discriminate Hlen). clear Hlen.
  split.
  - intros Hn.
    destruct o, o0, o1, o2; cbn in Hn |- *;
      repeat match goal with
        | |- context [(?a =? 0)%Z] =>
            destruct (Z.eqb_spec a 0); [lia|]; cbn
        end; reflexivity.
  - intros -> H. destruct o2; [discriminate H|]. reflexivity.
Qed.

(** [node_free_last_childs_out_of_range] on a node with one child and
    [n = 2]. *)
Lemma node_free_last_childs_out_of_range_witness :
  length (childs node_RE_a) = MAX_CHILDS
  /\ (Z.of_nat (length (attached (childs node_RE_a))) < 2)%Z
  /\ node_free_last_childs node_RE_a 2
     = (mkNode "RE" [None; None; None; None], [leaf "a"]).
Proof.
  split; [reflexivity|]. split; [cbn; lia|].
  apply (proj1 (node_free_last_childs_out_of_range node_RE_a 2 eq_refl)).
  right. cbn. lia.
Defined.

(** ** The terminals *)

Lemma terminal_classes c st :
  let on (f : string -> nat -> St -> Result) := succeeds (f (String c "") 0 st) in
  length (List.filter on terminals) <= 1
  /\ (c = NUL -> List.filter on terminals = []).
Proof.
  destruct c as [[] [] [] [] [] [] [] []]; vm_compute;
    (split; [lia | first [reflexivity | discriminate]]).
Qed.

Lemma terminal_char_only (f : string -> nat -> St -> Result) s idx st :
  In f terminals ->
  succeeds (f s idx st) = succeeds (f (String (char_at s idx) "") 0 st).
Proof.
  unfold terminals. simpl.
  intros [<-|[<-|[<-|[<-|[<-|[<-|[]]]]]]];
    unfold epsilon, symbol, lpar, rpar, star, plus, succeeds;
    cbv zeta;
    change (char_at (String (char_at s idx) "") 0) with (char_at s idx);
    match goal with
    | |- context [if ?b then _ else _] =>
        match type of b with bool => destruct b end
    end;
    reflexivity.
Qed.

(** X5: at any position at most one of the six terminals succeeds, and none
    does on the terminating NUL; a terminal that fails leaves the state as
    it was; one that succeeds returns the next position and, on a node with
    room, has attached one leaf labelled with the character it read. *)
Theorem terminals_exclusive s idx st :
  length (List.filter (fun f => succeeds (f s idx st)) terminals) <= 1
  /\ (char_at s idx = NUL ->
      forall f, In f terminals -> succeeds (f s idx st) = false)
  /\ (forall f, In f terminals ->
      match f s idx st with
      | (None, st') => st' = st
      | (Some idx_out, st') =>
          idx_out = idx + 1
          /\ (has_room (fst st) ->
              st' = (push (fst st) (leaf (String (char_at s idx) "")), snd st))
      end).
Proof.
  assert (E : List.filter (fun f => succeeds (f s idx st)) terminals
              = List.filter
                  (fun f => succeeds (f (String (char_at s idx) "") 0 st))
                  terminals).
  { apply List.filter_ext_in. intros f Hf. now apply terminal_char_only. }
  destruct (terminal_classes (char_at s idx) st) as [H1 H2]. cbv zeta in H1, H2.
  split; [now rewrite E|]. split.
  - intros Hc f Hf. specialize (H2 Hc). rewrite <- E in H2.
    destruct (succeeds (f s idx st)) eqn:S; [|reflexivity].
    assert (Hin : In f (List.filter (fun f => succeeds (f s idx st)) terminals))
      by (apply List.filter_In; auto).
    rewrite H2 in Hin. contradiction.
  - unfold terminals. simpl.
    intros f [<-|[<-|[<-|[<-|[<-|[<-|[]]]]]]];
      unfold epsilon, symbol, lpar, rpar, star, plus; cbv zeta;
      match goal with
      | |- context [if ?b then _ else _] =>
          match type of b with bool => destruct b eqn:C end
      end; try reflexivity;
      (split; [reflexivity|]);
      first [apply code_eq in C | apply ascii_eqb_true in C | idtac];
      try rewrite C;
      destruct st as [p lost]; intros Hroom;
      destruct (has_room_inv p Hroom)
        as [c [->|[[x ->]|[[x [y ->]]|[x [y [z ->]]]]]]];
      reflexivity.
Qed.

(** [terminals_exclusive] at the "+" of "a+b": [plus] succeeds, the others
    fail. *)
Lemma terminals_exclusive_witness :
  In plus terminals
  /\ has_room node_RE_a
  /\ plus "a+b" 1 (node_RE_a, [])
     = (Some 2, (mkNode "RE" [Some (leaf "a"); Some (leaf "+"); None; None], []))
  /\ List.filter (fun f => succeeds (f "a+b" 1 (node_RE_a, []))) terminals
     = [plus].
Proof.
  assert (I : In plus terminals) by (cbv; tauto).
  assert (R : has_room node_RE_a) by room.
  split; [exact I|]. split; [exact R|]. split; [|reflexivity].
  pose proof (proj2 (proj2 (terminals_exclusive "a+b" 1 (node_RE_a, []))) plus I)
    as H.
  destruct (plus "a+b" 1 (node_RE_a, [])) as [[o|] st'] eqn:E.
  - destruct H as [-> H]. rewrite (H R). reflexivity.
  - discriminate E.
Defined.

(** ** The verdict does not depend on the tree *)

Lemma in_order_same_verdict alts :
  Forall alt_same_verdict alts -> alt_same_verdict (in_order alts).
Proof.
  induction 1 as [|alt rest Halt _ IH]; intros st st'; simpl.
  - reflexivity.
  - specialize (Halt st st').
    destruct (alt st) as [o s1|s1|], (alt st') as [o' s1'|s1'|];
      simpl in Halt; try discriminate Halt.
    + exact Halt.
    + apply IH.
    + reflexivity.
Qed.

Lemma production_same_verdict label alts :
  alt_same_verdict (in_order alts) ->
  forall st st',
    verdict (production label alts st) = verdict (production label alts st').
Proof.
  intros H [p lost] [p' lost']. unfold production.
  destruct (node_add_child p _) as [q slot], (node_add_child p' _) as [q' slot'].
  specialize (H (node_init node_new label, lost)
                (node_init node_new label, lost')).
  destruct (in_order alts _) as [o s1|s1|], (in_order alts _) as [o' s1'|s1'|];
    simpl in H; try discriminate H; try reflexivity.
  injection H as <-. reflexivity.
Qed.

Section AlternativesVerdict.

Variable s : string.
Variable idx : nat.
Variables RE_rec RE_prime_rec : nat -> St -> option Result.
Hypothesis RE_rec_same : same_verdict RE_rec.
Hypothesis RE_prime_rec_same : same_verdict RE_prime_rec.

Ltac terminal f :=
  unfold f; cbv zeta;
  match goal with
  | |- context [if ?b then _ else _] =>
      match type of b with bool => destruct b end
  end; cbn [flow_verdict]; try reflexivity.

Ltac call H :=
  match goal with
  | |- flow_verdict (match ?f ?i ?x with _ => _ end)
       = flow_verdict (match ?f ?i ?y with _ => _ end) =>
      let V := fresh "V" in
      pose proof (H i x y) as V;
      destruct (f i x) as [[[?o|] ?st]|], (f i y) as [[[?o|] ?st]|];
      simpl in V; try discriminate V;
      try (injection V as <-);
      cbn [flow_verdict]; try reflexivity
  end.

Lemma RE_alternatives_same_verdict :
  Forall alt_same_verdict (RE_alternatives s RE_rec RE_prime_rec idx).
Proof.
  unfold RE_alternatives.
  repeat (constructor; [intros st st'|]); [..|constructor].
  - unfold RE_epsilon_RE_prime. terminal epsilon. call RE_prime_rec_same.
  - unfold RE_symbol_RE_prime. terminal symbol. call RE_prime_rec_same.
  - unfold RE_lpar_RE_rpar_RE_prime. terminal lpar. call RE_rec_same.
    terminal rpar. call RE_prime_rec_same.
  - unfold RE_lpar_RE_rpar. terminal lpar. call RE_rec_same. terminal rpar.
  - unfold RE_epsilon. terminal epsilon.
  - unfold RE_symbol. terminal symbol.
Qed.

Lemma RE_prime_alternatives_same_verdict :
  Forall alt_same_verdict (RE_prime_alternatives s RE_rec RE_prime_rec idx).
Proof.
  unfold RE_prime_alternatives.
  repeat (constructor; [intros st st'|]); [..|constructor].
  - unfold RE_prime_plus_RE_RE_prime. terminal plus. call RE_rec_same.
    call RE_prime_rec_same.
  - unfold RE_prime_plus_RE. terminal plus. call RE_rec_same.
  - unfold RE_prime_star_RE_prime. terminal star. call RE_prime_rec_same.
  - unfold RE_prime_RE_RE_prime. call RE_rec_same. call RE_prime_rec_same.
  - unfold RE_prime_RE. call RE_rec_same.
  - unfold RE_prime_star. terminal star.
Qed.

End AlternativesVerdict.

Lemma RE_same_verdict fuel s :
  same_verdict (RE fuel s) /\ same_verdict (RE_prime fuel s).
Proof.
  induction fuel as [|fuel [IH1 IH2]].
  - split; intros idx st st'; reflexivity.
  - split; intros idx st st'.
    + apply (production_same_verdict "RE"), in_order_same_verdict,
        RE_alternatives_same_verdict; assumption.
    + apply (production_same_verdict "RE'"), in_order_same_verdict,
        RE_prime_alternatives_same_verdict; assumption.
Qed.

(** X6: what [RE] and [RE_prime] return, and the cursor they return, depend
    on the input and on the position only: not on the node they are given,
    not even when that node has no empty slot. *)
Theorem verdict_independent_of_tree fuel s idx st st' :
  option_map fst (RE fuel s idx st) = option_map fst (RE fuel s idx st')
  /\ option_map fst (RE_prime fuel s idx st)
     = option_map fst (RE_prime fuel s idx st').
Proof.
  split; [apply (proj1 (RE_same_verdict fuel s)) |
          apply (proj2 (RE_same_verdict fuel s))].
Qed.

(** ** The longest derivable prefix *)

Lemma scan_cons s a b d :
  a < b ->
  scan s a (b - a) d
  = match paren_step (char_at s a) d with
    | Some d' => scan s (a + 1) (b - (a + 1)) d'
    | None => None
    end.
Proof.
  intros H. replace (b - a) with (S (b - (a + 1))) by lia. reflexivity.
Qed.

Lemma scan_plus s : forall n m a d,
  scan s a (n + m) d
  = match scan s a n d with
    | Some d' => scan s (a + n) m d'
    | None => None
    end.
Proof.
  induction n as [|n IH]; intros m a d; simpl.
  - now rewrite Nat.add_0_r.
  - destruct (paren_step (char_at s a) d) as [d'|]; [|reflexivity].
    rewrite IH. replace (a + 1 + n) with (a + S n) by lia. reflexivity.
Qed.

Lemma scan_split s a m b d :
  a <= m <= b ->
  scan s a (b - a) d
  = match scan s a (m - a) d with
    | Some d' => scan s m (b - m) d'
    | None => None
    end.
Proof.
  intros H. replace (b - a) with ((m - a) + (b - m)) by lia.
  rewrite scan_plus. replace (a + (m - a)) with m by lia. reflexivity.
Qed.

Lemma paren_step_symbol c d :
  is_symbol_char c = true -> paren_step c d = Some d.
Proof.
  intros H. unfold paren_step.
  destruct (40 =? nat_of_ascii c) eqn:E1;
    [apply code_eq in E1; subst c; discriminate H|].
  destruct (41 =? nat_of_ascii c) eqn:E2;
    [apply code_eq in E2; subst c; discriminate H|].
  reflexivity.
Qed.

Lemma scan_char s a b c d :
  a < b -> char_at s a = c ->
  scan s a (b - a) d
  = match paren_step c d with
    | Some d' => scan s (a + 1) (b - (a + 1)) d'
    | None => None
    end.
Proof. intros H <-. now apply scan_cons. Qed.

Lemma scan_symbol s a b d :
  a < b -> is_symbol_char (char_at s a) = true ->
  scan s a (b - a) d = scan s (a + 1) (b - (a + 1)) d.
Proof.
  intros H Hc. rewrite (scan_cons s a b d H).
  now rewrite (paren_step_symbol _ _ Hc).
Qed.

Lemma scan_last s a c d :
  char_at s a = c -> scan s a (a + 1 - a) d = paren_step c d.
Proof.
  intros <-. replace (a + 1 - a) with 1 by lia. simpl.
  now destruct (paren_step (char_at s a) d).
Qed.

(** A derivation moves forward and is balanced in its parentheses. *)
Ltac paren :=
  match goal with
  | |- context [paren_step ?c ?d] =>
      let r := eval vm_compute in (paren_step c d) in
      change (paren_step c d) with r; cbv iota beta
  end.

Lemma tree_balanced s :
  (forall i j t, tree_RE s i j t ->
     i < j /\ forall d, scan s i (j - i) d = Some d)
  /\ (forall i j t, tree_RE_prime s i j t ->
        i < j /\ forall d, scan s i (j - i) d = Some d).
Proof.
  apply tree_mutind; intros;
    repeat match goal with H : _ /\ _ |- _ => destruct H end;
    (split; [lia|]); intros d.
  - rewrite (scan_char s i j "#") by (assumption || lia). paren. auto.
  - rewrite scan_symbol by (assumption || lia). auto.
  - rewrite (scan_char s i k "(") by (assumption || lia). paren.
    rewrite (scan_split s (i + 1) j k) by lia.
    match goal with H : forall d, scan s (i + 1) _ d = _ |- _ => rewrite H end.
    rewrite (scan_char s j k ")") by (assumption || lia). paren. auto.
  - rewrite (scan_char s i (j + 1) "(") by (assumption || lia). paren.
    rewrite (scan_split s (i + 1) j (j + 1)) by lia.
    match goal with H : forall d, scan s (i + 1) _ d = _ |- _ => rewrite H end.
    rewrite (scan_last s j ")") by assumption. paren. reflexivity.
  - rewrite (scan_last s i "#") by assumption. paren. reflexivity.
  - replace (i + 1 - i) with 1 by lia. simpl.
    now rewrite paren_step_symbol.
  - rewrite (scan_char s i k "+") by (assumption || lia). paren.
    rewrite (scan_split s (i + 1) j k) by lia.
    match goal with H : forall d, scan s (i + 1) _ d = _ |- _ => rewrite H end.
    auto.
  - rewrite (scan_char s i j "+") by (assumption || lia). paren. auto.
  - rewrite (scan_char s i j "*") by (assumption || lia). paren. auto.
  - rewrite (scan_split s i j k) by lia.
    match goal with H : forall d, scan s i _ d = _ |- _ => rewrite H end.
    auto.
  - auto.
  - rewrite (scan_last s i "*") by assumption. paren. reflexivity.
Qed.

(** A derivation does not run over a ")" that closes an enclosing
    parenthesis. *)
Lemma paren_stop s a m j t t' :
  tree_RE s a m t -> char_at s m = ")"%char -> tree_RE s a j t' -> j <= m.
Proof.
  intros D1 Hc D2.
  destruct (proj1 (tree_balanced s) _ _ _ D1) as [H1 B1].
  destruct (proj1 (tree_balanced s) _ _ _ D2) as [H2 B2].
  destruct (Nat.le_gt_cases j m) as [|Hlt]; [assumption|]. exfalso.
  specialize (B2 0). rewrite (scan_split s a m j) in B2 by lia.
  rewrite B1 in B2. rewrite (scan_char s m j ")") in B2 by (assumption || lia).
  change (paren_step ")" 0) with (@None nat) in B2. discriminate B2.
Qed.

(** An RE followed by an RE' is an RE, an RE' followed by an RE' is an
    RE'. *)
Lemma tree_closure s :
  (forall i m t, tree_RE s i m t ->
     forall k t', tree_RE_prime s m k t' -> exists t'', tree_RE s i k t'')
  /\ (forall i m t, tree_RE_prime s i m t ->
        forall k t', tree_RE_prime s m k t' ->
        exists t'', tree_RE_prime s i k t'').
Proof.
  apply tree_mutind; intros;
    first
      [ solve [eexists; econstructor; eassumption]
      | match goal with
        | IH : forall k t', tree_RE_prime s ?m k t' -> exists _, _,
          D : tree_RE_prime s ?m _ _ |- _ =>
            destruct (IH _ _ D) as [? ?];
            solve [eexists; econstructor; eassumption]
        end ].
Qed.

(** An RE begins with "#", a symbol or "(". *)
Lemma RE_first_char s i j t :
  tree_RE s i j t ->
  char_at s i = "#"%char
  \/ is_symbol_char (char_at s i) = true
  \/ char_at s i = "("%char.
Proof. intros D. inversion D; auto. Qed.

Section LongestDerivation.

Variable s : string.
Variable idx : nat.
Variables RE_rec RE_prime_rec : nat -> St -> option Result.
Hypothesis idx_le : idx <= strlen s.
Hypothesis RE_rec_ok : call_ok (tree_RE s) RE_rec.
Hypothesis RE_prime_rec_ok : call_ok (tree_RE_prime s) RE_prime_rec.
Hypothesis RE_rec_total : call_total s (idx + 1) RE_rec.
Hypothesis RE_prime_rec_total : call_total s (idx + 1) RE_prime_rec.
Hypothesis RE_rec_max : call_max s (tree_RE s) (idx + 1) RE_rec.
Hypothesis RE_prime_rec_max : call_max s (tree_RE_prime s) (idx + 1) RE_prime_rec.

(** Compute the node that a rollback leaves. *)
Ltac undo :=
  match goal with
  | |- context [rollback ?st ?n] =>
      let r := eval vm_compute in (rollback st n) in
      change (rollback st n) with r
  end.

(** The next recursive call, with what is known of it. *)
Ltac call Hok Htot Hmax :=
  match type of Hok with
  | call_ok _ ?f =>
      match goal with
      | |- context [f ?i (?p, ?l)] =>
          let R := fresh "R" in
          let C := fresh "C" in
          let T := fresh "T" in
          let M := fresh "M" in
          assert (R : has_room p) by room;
          pose proof (Hok i p l R) as C;
          pose proof (Htot i (p, l)) as T;
          pose proof (Hmax i p l) as M;
          destruct (f i (p, l)) as [[[?j|] ?st]|];
          [ destruct C as (?t & -> & ?D);
            specialize (T ltac:(lia)); specialize (M ltac:(lia) R)
          | subst; clear T; specialize (M ltac:(lia) R)
          | exfalso; apply T; lia ];
          clear R; repeat undo; cbn -[rpar Nat.eqb]
      end
  end.

(** Two derivations of the parenthesised RE end on the same ")". *)
Ltac same_paren :=
  match goal with
  | D1 : tree_RE s ?a ?m _, Hc : char_at s ?m = ")"%char,
    D2 : tree_RE s ?a ?j _,
    M : forall k t, tree_RE s ?a k t -> k <= ?j |- _ =>
      assert (m = j)
        by (apply Nat.le_antisymm;
            [exact (M _ _ D1) | exact (paren_stop s a m j _ _ D1 Hc D2)]);
      subst m
  end.

(** Go through the derivations from [idx]: those whose first character
    is not the one at [idx] do not exist, the others end no later than
    what the calls returned. *)
Ltac derivations :=
  let Dk := fresh "Dk" in
  intros ? ? Dk; inversion Dk; subst; clear Dk;
  try congruence;
  try match goal with
      | H : is_symbol_char (char_at s idx) = true,
        E : char_at s idx = _ |- _ => rewrite E in H; discriminate H
      | H : char_at s idx = _,
        E : (_ =? nat_of_ascii (char_at s idx)) = false |- _ =>
          rewrite H in E; discriminate E
      end;
  try same_paren;
  try match goal with
      | H : char_at s ?a = _,
        E : (_ =? nat_of_ascii (char_at s ?a)) = false |- _ =>
          rewrite H in E; discriminate E
      end;
  try match goal with
      | D : tree_RE s idx _ _, E : char_at s idx = _ |- _ =>
          exfalso;
          destruct (RE_first_char s _ _ _ D) as [F|[F|F]];
          [congruence | rewrite E in F; discriminate F | congruence]
      end;
  try match goal with
      | D1 : tree_RE s ?a ?m _, D2 : tree_RE_prime s ?m _ _ |- _ =>
          destruct (proj1 (tree_closure s) _ _ _ D1 _ _ D2) as [? ?]
      end;
  repeat match goal with
         | M : forall k t, ~ tree_RE s ?a k t, D : tree_RE s ?a _ _ |- _ =>
             exfalso; exact (M _ _ D)
         | M : forall k t, ~ tree_RE_prime s ?a k t,
           D : tree_RE_prime s ?a _ _ |- _ =>
             exfalso; exact (M _ _ D)
         | M : forall k t, tree_RE s ?a k t -> k <= _,
           D : tree_RE s ?a _ _ |- _ =>
             pose proof (M _ _ D); clear D
         | M : forall k t, tree_RE_prime s ?a k t -> k <= _,
           D : tree_RE_prime s ?a _ _ |- _ =>
             pose proof (M _ _ D); clear D
         end;
  try lia.

Lemma RE_in_order_max lost :
  flow_max (tree_RE s idx)
    (in_order (RE_alternatives s RE_rec RE_prime_rec idx) (leaf "RE", lost)).
Proof.
  unfold RE_alternatives, RE_epsilon_RE_prime, RE_symbol_RE_prime,
    RE_lpar_RE_rpar_RE_prime, RE_lpar_RE_rpar, RE_epsilon, RE_symbol,
    epsilon, symbol, lpar.
  cbv zeta.
  destruct (Ascii.eqb (char_at s idx) "#") eqn:E1;
    destruct (is_symbol_char (char_at s idx)) eqn:E2;
    destruct (40 =? nat_of_ascii (char_at s idx)) eqn:E3;
    try (apply ascii_eqb_true in E1; rewrite E1 in E2, E3; discriminate);
    try (apply code_eq in E3; rewrite E3 in E2; discriminate).
  - apply ascii_eqb_true in E1.
    assert (N : idx + 1 <= strlen s)
      by (apply strlen_step; [exact idx_le | rewrite E1; discriminate]).
    clear E2 E3. cbn.
    call RE_prime_rec_ok RE_prime_rec_total RE_prime_rec_max; derivations.
  - apply Ascii.eqb_neq in E1.
    assert (N : idx + 1 <= strlen s)
      by (apply strlen_step; [exact idx_le | now apply symbol_not_NUL]).
    cbn.
    call RE_prime_rec_ok RE_prime_rec_total RE_prime_rec_max; derivations.
  - apply Ascii.eqb_neq in E1. apply code_eq in E3.
    assert (N : idx + 1 <= strlen s)
      by (apply strlen_step; [exact idx_le | rewrite E3; discriminate]).
    cbn.
    call RE_rec_ok RE_rec_total RE_rec_max.
    + unfold rpar at 1. cbv zeta.
      destruct (41 =? nat_of_ascii (char_at s j)) eqn:E4;
        repeat undo; cbn -[rpar Nat.eqb].
      * pose proof (code_eq _ _ E4) as E4'.
        assert (N2 : j + 1 <= strlen s)
          by (apply strlen_step; [lia | rewrite E4'; discriminate]).
        call RE_prime_rec_ok RE_prime_rec_total RE_prime_rec_max.
        -- derivations.
        -- call RE_rec_ok RE_rec_total RE_rec_max;
             [|exfalso; eapply M1; eassumption].
           assert (j0 = j)
             by (pose proof (M _ _ D0); pose proof (M1 _ _ D); lia).
           subst j0. unfold rpar. cbv zeta. rewrite E4. cbn.
           derivations.
      * call RE_rec_ok RE_rec_total RE_rec_max;
          [|exfalso; eapply M0; eassumption].
        assert (j0 = j)
          by (pose proof (M _ _ D0); pose proof (M0 _ _ D); lia).
        subst j0. unfold rpar. cbv zeta. rewrite E4. repeat undo. cbn.
        derivations.
    + call RE_rec_ok RE_rec_total RE_rec_max;
        [exfalso; eapply M; eassumption | derivations].
  - apply Ascii.eqb_neq in E1. cbn. derivations.
Qed.

(** A call that is made a second time returns what it returned the first
    time. *)
Ltac absurd_call :=
  match goal with
  | M : forall k t, ~ tree_RE s ?a k t, D : tree_RE s ?a _ _ |- _ =>
      exfalso; exact (M _ _ D)
  | M : forall k t, ~ tree_RE_prime s ?a k t,
    D : tree_RE_prime s ?a _ _ |- _ =>
      exfalso; exact (M _ _ D)
  | D : tree_RE s idx _ _, E : char_at s idx = _ |- _ =>
      exfalso;
      destruct (RE_first_char s _ _ _ D) as [F|[F|F]];
      [congruence | rewrite E in F; discriminate F | congruence]
  end.

Ltac same_end :=
  match goal with
  | M1 : forall k t, tree_RE s ?a k t -> k <= ?j, D1 : tree_RE s ?a ?j _,
    M2 : forall k t, tree_RE s ?a k t -> k <= ?j', D2 : tree_RE s ?a ?j' _
    |- _ =>
      tryif constr_eq j j' then fail else
        (assert (j' = j)
           by (pose proof (M1 _ _ D2); pose proof (M2 _ _ D1); lia);
         subst j')
  end.

Ltac again Hok Htot Hmax :=
  call Hok Htot Hmax; try absurd_call; try same_end.

(** RE' also calls [RE] at its own position. *)
Hypothesis RE_rec_total_here : call_total s idx RE_rec.
Hypothesis RE_rec_max_here : call_max s (tree_RE s) idx RE_rec.

Lemma RE_prime_in_order_max lost :
  flow_max (tree_RE_prime s idx)
    (in_order (RE_prime_alternatives s RE_rec RE_prime_rec idx)
       (leaf "RE'", lost)).
Proof.
  unfold RE_prime_alternatives, RE_prime_plus_RE_RE_prime, RE_prime_plus_RE,
    RE_prime_star_RE_prime, RE_prime_RE_RE_prime, RE_prime_RE, RE_prime_star,
    plus, star.
  cbv zeta.
  destruct (43 =? nat_of_ascii (char_at s idx)) eqn:E1;
    destruct (42 =? nat_of_ascii (char_at s idx)) eqn:E2;
    try (apply code_eq in E1; rewrite E1 in E2; discriminate).
  - apply code_eq in E1. change (ascii_of_nat 43) with "+"%char in E1.
    assert (N : idx + 1 <= strlen s)
      by (apply strlen_step; [exact idx_le | rewrite E1; discriminate]).
    cbn.
    call RE_rec_ok RE_rec_total_here RE_rec_max_here.
    + call RE_prime_rec_ok RE_prime_rec_total RE_prime_rec_max.
      * derivations.
      * again RE_rec_ok RE_rec_total_here RE_rec_max_here. derivations.
    + again RE_rec_ok RE_rec_total_here RE_rec_max_here.
      again RE_rec_ok RE_rec_total_here RE_rec_max_here.
      again RE_rec_ok RE_rec_total_here RE_rec_max_here.
      derivations.
  - apply code_eq in E2. change (ascii_of_nat 42) with "*"%char in E2.
    assert (N : idx + 1 <= strlen s)
      by (apply strlen_step; [exact idx_le | rewrite E2; discriminate]).
    cbn.
    call RE_prime_rec_ok RE_prime_rec_total RE_prime_rec_max.
    + derivations.
    + again RE_rec_ok RE_rec_total_here RE_rec_max_here.
      again RE_rec_ok RE_rec_total_here RE_rec_max_here.
      derivations.
  - cbn.
    call RE_rec_ok RE_rec_total_here RE_rec_max_here.
    + call RE_prime_rec_ok RE_prime_rec_total RE_prime_rec_max.
      * derivations.
      * again RE_rec_ok RE_rec_total_here RE_rec_max_here. derivations.
    + again RE_rec_ok RE_rec_total_here RE_rec_max_here. derivations.
Qed.

End LongestDerivation.

Lemma production_max (D : nat -> Node -> Prop) label alts p lost :
  has_room p ->
  flow_max D (in_order alts (leaf label, lost)) ->
  match production label alts (p, lost) with
  | Some (Some j, _) => forall k t, D k t -> k <= j
  | Some (None, _) => forall k t, ~ D k t
  | None => True
  end.
Proof.
  intros Hroom H. rewrite production_room by assumption.
  destruct (in_order alts (leaf label, lost)) as [o [v l]|[v l]|]; exact H.
Qed.

Lemma call_max_weaken s D lo lo' f :
  lo <= lo' -> call_max s D lo f -> call_max s D lo' f.
Proof. intros Hle H idx p lost Hidx. apply H. lia. Qed.

(** With the fuel of [RE_total_from], [RE] and [RE_prime] return the end of
    the longest derivation. *)
Lemma RE_max_from s fuel : forall lo,
  (2 * (strlen s - lo) + 1 <= fuel -> call_max s (tree_RE s) lo (RE fuel s))
  /\ (2 * (strlen s - lo) + 2 <= fuel ->
      call_max s (tree_RE_prime s) lo (RE_prime fuel s)).
Proof.
  induction fuel as [|fuel IH]; intros lo.
  - split; intros; lia.
  - destruct (RE_ok fuel s) as [Ok1 Ok2].
    assert (Hnext : forall idx, lo <= idx <= strlen s ->
              2 * (strlen s - lo) + 1 <= S fuel ->
              (call_total s (idx + 1) (RE fuel s)
               /\ call_total s (idx + 1) (RE_prime fuel s))
              /\ (call_max s (tree_RE s) (idx + 1) (RE fuel s)
                  /\ call_max s (tree_RE_prime s) (idx + 1) (RE_prime fuel s))).
    { intros idx Hidx Hfuel.
      destruct (Nat.eq_dec idx (strlen s)) as [->|Hne].
      - repeat split; intros i; intros; lia.
      - destruct (IH (idx + 1)) as [H1 H2].
        destruct (RE_total_from s fuel (idx + 1)) as [T1 T2].
        repeat split; [apply T1 | apply T2 | apply H1 | apply H2]; lia. }
    split; intros Hfuel idx p lost Hidx Hroom.
    + destruct (Hnext idx Hidx) as [[T1 T2] [M1 M2]]; [lia|].
      change (RE (S fuel) s idx (p, lost))
        with (production "RE"
                (RE_alternatives s (RE fuel s) (RE_prime fuel s) idx) (p, lost)).
      apply (production_max (tree_RE s idx) "RE"); [exact Hroom|].
      apply RE_in_order_max; assumption || lia.
    + destruct (Hnext idx Hidx) as [[T1 T2] [M1 M2]]; [lia|].
      change (RE_prime (S fuel) s idx (p, lost))
        with (production "RE'"
                (RE_prime_alternatives s (RE fuel s) (RE_prime fuel s) idx)
                (p, lost)).
      apply (production_max (tree_RE_prime s idx) "RE'"); [exact Hroom|].
      apply RE_prime_in_order_max; try (assumption || lia).
      * apply (proj1 (RE_total_from s fuel idx)). lia.
      * apply (proj1 (IH idx)). lia.
Qed.

(** What a call that returns has returned, whatever the node and the
    fuel. *)
Lemma RE_longest_any fuel s idx st v st' :
  idx <= strlen s ->
  (RE fuel s idx st = Some (v, st') ->
   match v with
   | Some j =>
       (exists t, tree_RE s idx j t) /\ forall k t, tree_RE s idx k t -> k <= j
   | None => forall k t, ~ tree_RE s idx k t
   end)
  /\ (RE_prime fuel s idx st = Some (v, st') ->
      match v with
      | Some j =>
          (exists t, tree_RE_prime s idx j t)
          /\ forall k t, tree_RE_prime s idx k t -> k <= j
      | None => forall k t, ~ tree_RE_prime s idx k t
      end).
Proof.
  intros Hidx.
  set (big := Nat.max fuel (2 * (strlen s - idx) + 2)).
  assert (R : has_room (leaf "Root")) by apply has_room_leaf.
  split; intros H.
  - apply (proj1 (RE_fuel_mono s fuel big ltac:(lia))) in H.
    pose proof (proj1 (RE_same_verdict big s) idx st (leaf "Root", [])) as V.
    rewrite H in V.
    pose proof (proj1 (RE_ok big s) idx (leaf "Root") [] R) as C.
    pose proof (proj1 (RE_max_from s big idx) ltac:(lia) idx (leaf "Root") []
                  ltac:(lia) R) as M.
    destruct (RE big s idx (leaf "Root", [])) as [[[j|] st1]|];
      simpl in V; try discriminate V; injection V as ->.
    + destruct C as (t & _ & D). eauto.
    + exact M.
  - apply (proj2 (RE_fuel_mono s fuel big ltac:(lia))) in H.
    pose proof (proj2 (RE_same_verdict big s) idx st (leaf "Root", [])) as V.
    rewrite H in V.
    pose proof (proj2 (RE_ok big s) idx (leaf "Root") [] R) as C.
    pose proof (proj2 (RE_max_from s big idx) ltac:(lia) idx (leaf "Root") []
                  ltac:(lia) R) as M.
    destruct (RE_prime big s idx (leaf "Root", [])) as [[[j|] st1]|];
      simpl in V; try discriminate V; injection V as ->.
    + destruct C as (t & _ & D). eauto.
    + exact M.
Qed.

(** X7: [RE] and [RE_prime] are greedy.  Called at a position of the
    input, whatever the node they are given, they return true exactly when
    some prefix of the rest of the input is derivable from RE (from RE'),
    and the cursor they return is the end of the longest such prefix. *)
Theorem RE_longest fuel s idx st v st' :
  idx <= strlen s ->
  (RE fuel s idx st = Some (v, st') ->
   match v with
   | Some j =>
       (exists t, tree_RE s idx j t) /\ forall k t, tree_RE s idx k t -> k <= j
   | None => forall k t, ~ tree_RE s idx k t
   end)
  /\ (RE_prime fuel s idx st = Some (v, st') ->
      match v with
      | Some j =>
          (exists t, tree_RE_prime s idx j t)
          /\ forall k t, tree_RE_prime s idx k t -> k <= j
      | None => forall k t, ~ tree_RE_prime s idx k t
      end).
Proof. apply RE_longest_any. Qed.

(** [RE_longest] on "a+b)c" from position 0: the longest RE is "a+b", and
    "a" alone is an RE too. *)
Lemma RE_longest_witness :
  0 <= strlen "a+b)c"
  /\ RE 7 "a+b)c" 0 (node_RE_full, []) = Some (Some 3, (node_RE_full, [mkNode "RE"
       [Some (leaf "a");
        Some (mkNode "RE'"
          [Some (leaf "+");
           Some (mkNode "RE" [Some (leaf "b"); None; None; None]);
           None; None]);
        None; None]]))
  /\ tree_RE "a+b)c" 0 1 (mkNode "RE" [Some (leaf "a"); None; None; None])
  /\ 1 <= 3.
Proof.
  assert (E : RE 7 "a+b)c" 0 (node_RE_full, []) = Some (Some 3, (node_RE_full, [mkNode "RE"
       [Some (leaf "a");
        Some (mkNode "RE'"
          [Some (leaf "+");
           Some (mkNode "RE" [Some (leaf "b"); None; None; None]);
           None; None]);
        None; None]]))) by (vm_compute; reflexivity).
  assert (D : tree_RE "a+b)c" 0 1 (mkNode "RE" [Some (leaf "a"); None; None; None]))
    by (apply (T_symbol "a+b)c" 0); reflexivity).
  split; [lia|]. split; [exact E|]. split; [exact D|].
  apply (proj2 (proj1 (RE_longest 7 "a+b)c" 0 _ _ _ ltac:(lia)) E) _ _ D).
Defined.

(** ** The parser decides the language of the grammar *)

Lemma drop_cons s : forall i c r,
  drop i s = String c r -> char_at s i = c /\ drop (i + 1) s = r.
Proof.
  induction s as [|a s IH]; intros i c r H.
  - destruct i; discriminate H.
  - destruct i as [|i]; simpl in H.
    + injection H as <- <-. split; reflexivity.
    + apply IH in H. exact H.
Qed.

Lemma drop_append w : forall s i r,
  drop i s = (w ++ r)%string -> drop (i + String.length w) s = r.
Proof.
  induction w as [|c w IH]; intros s i r H; simpl in *.
  - now rewrite Nat.add_0_r.
  - apply drop_cons in H. destruct H as [_ H].
    apply IH in H. now replace (i + S (String.length w))
                          with (i + 1 + String.length w) by lia.
Qed.

Lemma take_drop s : forall n, (take n s ++ drop n s)%string = s.
Proof.
  induction s as [|c s IH]; intros [|n]; simpl; try reflexivity.
  now rewrite IH.
Qed.

Lemma strlen_le_length s : strlen s <= String.length s.
Proof.
  induction s as [|c s IH]; simpl; [lia|].
  destruct (Ascii.eqb c NUL); lia.
Qed.

Lemma length_take s : forall n,
  n <= String.length s -> String.length (take n s) = n.
Proof.
  induction s as [|c s IH]; intros [|n] H; simpl in *; try lia.
  rewrite IH; lia.
Qed.

Lemma length_c_string s : String.length (c_string s) = strlen s.
Proof. apply length_take, strlen_le_length. Qed.

(** A string of the language, found in the input from position [i] on, has
    a derivation tree there. *)
Lemma lang_tree :
  (forall w, lang_RE w ->
     forall s i r, drop i s = (w ++ r)%string ->
     exists t, tree_RE s i (i + String.length w) t)
  /\ (forall w, lang_RE_prime w ->
        forall s i r, drop i s = (w ++ r)%string ->
        exists t, tree_RE_prime s i (i + String.length w) t).
Proof.
  apply lang_mutind.
  - intros w _ IH s i r H. simpl in H. apply drop_cons in H.
    destruct H as [Hc H]. destruct (IH _ _ _ H) as [t D].
    exists (mkNode "RE" [Some (leaf "#"); Some t; None; None]).
    simpl. replace (i + S (String.length w)) with (i + 1 + String.length w)
      by lia.
    now apply T_epsilon_RE_prime.
  - intros c w Hsym _ IH s i r H. simpl in H. apply drop_cons in H.
    destruct H as [Hc H]. destruct (IH _ _ _ H) as [t D]. subst c.
    eexists. simpl.
    replace (i + S (String.length w)) with (i + 1 + String.length w) by lia.
    apply T_symbol_RE_prime; eassumption.
  - intros w w' _ IH _ IH' s i r H. simpl in H. apply drop_cons in H.
    destruct H as [Hc H]. rewrite append_assoc_s in H.
    destruct (IH _ _ _ H) as [t D]. apply drop_append in H.
    simpl in H. apply drop_cons in H. destruct H as [Hc' H].
    destruct (IH' _ _ _ H) as [t' D'].
    eexists. simpl. rewrite length_append_s. simpl.
    replace (i + S (String.length w + S (String.length w')))
      with (i + 1 + String.length w + 1 + String.length w') by lia.
    eapply T_lpar_RE_rpar_RE_prime; eassumption.
  - intros w _ IH s i r H. simpl in H. apply drop_cons in H.
    destruct H as [Hc H]. rewrite append_assoc_s in H.
    destruct (IH _ _ _ H) as [t D]. apply drop_append in H.
    simpl in H. apply drop_cons in H. destruct H as [Hc' H].
    eexists. simpl. rewrite length_append_s. simpl.
    replace (i + S (String.length w + 1))
      with (i + 1 + String.length w + 1) by lia.
    eapply T_lpar_RE_rpar; eassumption.
  - intros s i r H. simpl in H. apply drop_cons in H. destruct H as [Hc H].
    eexists. simpl. now apply T_epsilon.
  - intros c Hsym s i r H. simpl in H. apply drop_cons in H.
    destruct H as [Hc H]. subst c. eexists. simpl. now apply T_symbol.
  - intros w w' _ IH _ IH' s i r H. simpl in H. apply drop_cons in H.
    destruct H as [Hc H]. rewrite append_assoc_s in H.
    destruct (IH _ _ _ H) as [t D]. apply drop_append in H.
    destruct (IH' _ _ _ H) as [t' D'].
    eexists. simpl. rewrite length_append_s.
    replace (i + S (String.length w + String.length w'))
      with (i + 1 + String.length w + String.length w') by lia.
    eapply T_plus_RE_RE_prime; eassumption.
  - intros w _ IH s i r H. simpl in H. apply drop_cons in H.
    destruct H as [Hc H]. destruct (IH _ _ _ H) as [t D].
    eexists. simpl.
    replace (i + S (String.length w)) with (i + 1 + String.length w) by lia.
    eapply T_plus_RE; eassumption.
  - intros w _ IH s i r H. simpl in H. apply drop_cons in H.
    destruct H as [Hc H]. destruct (IH _ _ _ H) as [t D].
    eexists. simpl.
    replace (i + S (String.length w)) with (i + 1 + String.length w) by lia.
    eapply T_star_RE_prime; eassumption.
  - intros w w' _ IH _ IH' s i r H. rewrite append_assoc_s in H.
    destruct (IH _ _ _ H) as [t D]. apply drop_append in H.
    destruct (IH' _ _ _ H) as [t' D'].
    eexists. rewrite length_append_s, Nat.add_assoc.
    eapply T_RE_RE_prime; eassumption.
  - intros w _ IH s i r H. destruct (IH _ _ _ H) as [t D].
    eexists. eapply T_RE; eassumption.
  - intros s i r H. simpl in H. apply drop_cons in H. destruct H as [Hc H].
    eexists. simpl. now apply T_star.
Qed.

Lemma parse_decides fuel s p b st :
  parse fuel s p = Some (b, st) -> (b = true <-> lang_RE (c_string s)).
Proof.
  intros H. split.
  - intros ->. destruct st as [t lost].
    rewrite <- (accepted_yield _ _ _ _ _ H).
    apply parse_accepts in H. destruct H as (t' & _ & [= -> ->] & D).
    cbn. rewrite append_empty_r. apply (proj1 (tree_lang s) _ _ _ D).
  - intros L.
    destruct (proj1 lang_tree _ L s 0 (drop (strlen s) s)) as [t D].
    { simpl. symmetry. apply take_drop. }
    rewrite length_c_string in D. simpl in D.
    apply parse_cases in H.
    destruct H as [(E & _ & _)|(o & t' & E & _ & _ & Hle & ->)].
    + exfalso.
      exact (proj1 (RE_longest_any fuel s 0 _ None _ ltac:(lia)) E _ _ D).
    + pose proof (proj1 (RE_longest_any fuel s 0 _ (Some o) _ ltac:(lia)) E)
        as [_ M].
      specialize (M _ _ D). assert (o = strlen s) by lia. subst o.
      rewrite char_at_strlen. reflexivity.
Qed.

(** X8: [parse] decides the language of the grammar: when it returns, it
    returns true if and only if the input string is derivable from RE. *)
Theorem parse_decides_language fuel s p b st :
  parse fuel s p = Some (b, st) -> (b = true <-> lang_RE (c_string s)).
Proof. apply parse_decides. Qed.

(** [parse_decides_language] on "(a+b)*": accepted, hence in the
    language. *)
Lemma parse_decides_language_witness :
  (exists st, parse 13 "(a+b)*" node_new = Some (true, st))
  /\ lang_RE "(a+b)*".
Proof.
  destruct (parse 13 "(a+b)*" node_new) as [[b st]|] eqn:E;
    [|vm_compute in E; discriminate E].
  assert (b = true) by (vm_compute in E; now injection E as <- _). subst b.
  split; [eauto|].
  apply (proj1 (parse_decides_language 13 "(a+b)*" node_new true st E)).
  reflexivity.
Defined.

Lemma take_all x : take (String.length x) x = x.
Proof. induction x as [|c x IH]; simpl; [reflexivity | now rewrite IH]. Qed.

Lemma whole_yield x y d :
  x = (y ++ d)%string -> String.length y = String.length x -> y = x.
Proof.
  intros E H. rewrite <- (take_append_length y d), <- E, H. apply take_all.
Qed.

(** An RE followed by an RE' is an RE, as strings. *)
Lemma lang_RE_append w w' :
  lang_RE w -> lang_RE_prime w' -> lang_RE (w ++ w').
Proof.
  intros L L'. set (s := (w ++ w')%string).
  destruct (proj1 lang_tree _ L s 0 w' eq_refl) as [t D].
  destruct (proj2 lang_tree _ L' s (0 + String.length w) "") as [t' D'].
  { rewrite append_empty_r. now apply (drop_append w s 0 w'). }
  destruct (proj1 (tree_closure s) _ _ _ D _ _ D') as [t'' D''].
  pose proof (proj1 (tree_lang s) _ _ _ D'') as Ly.
  pose proof (proj1 (tree_yield s) _ _ _ D'') as Hy.
  pose proof (proj1 (tree_yield_length s) _ _ _ D'') as Hl.
  simpl in Hy, Hl.
  rewrite <- (whole_yield s (yield t'') _ Hy); [exact Ly|].
  unfold s. rewrite length_append_s. lia.
Qed.

Lemma lang_source_RE w : lang_source w -> lang_RE w.
Proof.
  induction 1 as [|c Hc|w w' _ IH _ IH'|w w' _ IH _ IH'|w _ IH|w _ IH].
  - apply L_epsilon.
  - now apply L_symbol.
  - apply lang_RE_append; [exact IH | now apply L_plus_RE].
  - apply lang_RE_append; [exact IH | now apply L_RE].
  - apply lang_RE_append; [exact IH | apply L_star].
  - now apply L_lpar_RE_rpar.
Qed.

(** X9: the grammar without left recursion, which the parser follows, and
    the grammar it is derived from in the heading of the source file,
      RE ::= # | symbol | RE + RE | RE RE | RE * | ( RE ),
    have the same language; [parse] decides that language. *)
Theorem left_recursion_removal_sound :
  (forall w, lang_RE w <-> lang_source w)
  /\ (forall fuel s p b st,
        parse fuel s p = Some (b, st) ->
        (b = true <-> lang_source (c_string s))).
Proof.
  assert (A : forall w, lang_RE w <-> lang_source w)
    by (intros w; split; [apply (proj1 lang_RE_source) | apply lang_source_RE]).
  split; [exact A|].
  intros fuel s p b st H. rewrite <- A. now apply (parse_decides fuel s p b st).
Qed.

(** [left_recursion_removal_sound] on "ab": accepted, hence a
    concatenation in the grammar of the heading. *)
Lemma left_recursion_removal_sound_witness :
  parse 5 "ab" node_new = Some (true, (tree_ab, []))
  /\ lang_source "ab".
Proof.
  assert (E : parse 5 "ab" node_new = Some (true, (tree_ab, [])))
    by (vm_compute; reflexivity).
  split; [exact E|].
  apply (proj1 (proj2 left_recursion_removal_sound 5 "ab" node_new true _ E)).
  reflexivity.
Defined.

(** ** The shape and the size of the tree *)

Lemma node_ok_symbol c : is_symbol_char c = true -> node_ok (leaf (String c "")).
Proof.
  intros H. repeat split; [cbv; lia|].
  simpl. destruct (Ascii.eqb c NUL) eqn:E; [|reflexivity].
  apply Ascii.eqb_eq in E. subst c. discriminate H.
Qed.

Lemma tree_shape s :
  (forall i j t, tree_RE s i j t ->
     Forall node_ok (all_nodes t)
     /\ length (leaves t) = j - i
     /\ length (all_nodes t) + 1 <= 3 * (j - i))
  /\ (forall i j t, tree_RE_prime s i j t ->
        Forall node_ok (all_nodes t)
        /\ length (leaves t) = j - i
        /\ length (all_nodes t) <= 3 * (j - i)).
Proof.
  apply tree_mutind; intros;
    repeat match goal with
      | D : tree_RE s _ _ _ |- _ =>
          apply (proj1 (tree_balanced s)) in D; destruct D as [? _]
      | D : tree_RE_prime s _ _ _ |- _ =>
          apply (proj2 (tree_balanced s)) in D; destruct D as [? _]
      | H : _ /\ _ |- _ => destruct H
      end;
    unfold leaves in *; cbn;
    rewrite ?app_nil_r, ?List.filter_app, ?length_app; cbn;
    (split; [|split; [|lia]]).
  all: try lia.
  all: repeat first
      [ assumption
      | apply Forall_nil_2
      | apply Forall_cons_2;
        [first [ apply node_ok_symbol; assumption
               | repeat split; cbv; lia ]|]
      | apply Forall_app_2; [assumption|] ].
Qed.

(** X10: the tree of an accepted input has one leaf for each character of
    the input and at most three nodes for each character, the root
    included. *)
Theorem parse_tree_size fuel s p root lost :
  parse fuel s p = Some (true, (root, lost)) ->
  length (leaves root) = strlen s
  /\ length (all_nodes root) <= 3 * strlen s.
Proof.
  intros H. apply parse_accepts in H. destruct H as (t & _ & [= -> ->] & D).
  destruct (proj1 (tree_shape s) _ _ _ D) as (_ & Hl & Hn).
  unfold leaves in *. cbn. rewrite app_nil_r. lia.
Qed.

(** [parse_tree_size] on "ab", where the bound is reached. *)
Lemma parse_tree_size_witness :
  parse 5 "ab" node_new = Some (true, (tree_ab, []))
  /\ length (leaves tree_ab) = 2
  /\ length (all_nodes tree_ab) = 6.
Proof.
  assert (E : parse 5 "ab" node_new = Some (true, (tree_ab, [])))
    by (vm_compute; reflexivity).
  split; [exact E|].
  split; [exact (proj1 (parse_tree_size 5 "ab" node_new tree_ab [] E))|].
  reflexivity.
Defined.

(** X11: whatever [parse] returns, every node it leaves in the tree has a
    label that fits the [content] array with its terminator and holds no
    NUL, and its children fill a prefix of its slots, without a gap. *)
Theorem parse_nodes_well_formed fuel s p b root lost :
  parse fuel s p = Some (b, (root, lost)) ->
  Forall node_ok (all_nodes root).
Proof.
  intros H. apply parse_cases in H.
  destruct H as [(_ & _ & [= -> ->])|(o & t & _ & [= -> ->] & D & _)].
  - repeat constructor.
  - destruct (proj1 (tree_shape s) _ _ _ D) as (Hok & _).
    cbn. rewrite app_nil_r.
    apply Forall_cons_2; [repeat split; cbv; lia | exact Hok].
Qed.

(** [parse_nodes_well_formed] on "(a)*". *)
Lemma parse_nodes_well_formed_witness :
  parse 9 "(a)*" node_new = Some (true, (tree_par_a_star, []))
  /\ Forall node_ok (all_nodes tree_par_a_star).
Proof.
  assert (E : parse 9 "(a)*" node_new = Some (true, (tree_par_a_star, [])))
    by (vm_compute; reflexivity).
  split; [exact E|].
  exact (parse_nodes_well_formed 9 "(a)*" node_new true _ [] E).
Defined.

(** ** Printing the tree and the driver *)

(** *** Reading the output *)

Lemma has_char_append c x y :
  has_char c (x ++ y)%string = has_char c x || has_char c y.
Proof.
  induction x as [|a x IH]; simpl; [reflexivity|].
  rewrite IH. apply orb_assoc.
Qed.

Lemma has_char_dashes n : has_char LF (dashes n) = false.
Proof. induction n as [|n IH]; simpl; [reflexivity | exact IH]. Qed.

Lemma lines_line x r :
  has_char LF x = false -> lines (x ++ newline ++ r)%string = x :: lines r.
Proof.
  induction x as [|a x IH]; cbn [append has_char]; intros H.
  - reflexivity.
  - apply orb_false_iff in H. destruct H as [Ha Hx].
    cbn [lines]. rewrite Ha, (IH Hx). reflexivity.
Qed.

Lemma levels_all_nodes t : forall d, map snd (levels t d) = all_nodes t.
Proof.
  induction t as [c cs IH] using Node_ind_slots. intros d.
  simpl. f_equal.
  induction cs as [|[m|] cs IHcs]; simpl.
  - reflexivity.
  - rewrite map_app. f_equal.
    + apply IH. now left.
    + apply IHcs. intros n Hn. apply IH. now right.
  - apply IHcs. intros n Hn. apply IH. now right.
Qed.

(** What [tree_print] writes, followed by any text [r], read line by
    line. *)
Lemma tree_print_node_lines t : forall d r,
  Forall printable (all_nodes t) ->
  lines (tree_print_node t d ++ r)%string
  = map line_of (levels t d) ++ lines r.
Proof.
  induction t as [c cs IH] using Node_ind_slots. intros d r Hp.
  simpl in Hp. apply Forall_cons_1 in Hp. destruct Hp as [[Hlen Hc] Hp].
  simpl in Hlen, Hc.
  cbn [tree_print_node levels map]. unfold line_of at 1. cbn [fst snd content].
  rewrite !append_assoc_s, <- (append_assoc_s (dashes d)).
  rewrite lines_line
    by (rewrite has_char_append, has_char_dashes, Hc; reflexivity).
  rewrite <- app_comm_cons. f_equal.
  revert Hlen Hp. generalize MAX_CHILDS as k. revert IH.
  induction cs as [|[m|] cs IHcs]; intros IH k Hlen Hp.
  - destruct k; reflexivity.
  - destruct k as [|k]; [simpl in Hlen; lia|].
    apply Forall_app in Hp. destruct Hp as [Hm Hp].
    cbn [map]. rewrite map_app, <- app_assoc, append_assoc_s.
    rewrite (IH m) by (now left || exact Hm). f_equal.
    apply IHcs; [intros n Hn; apply IH; now right | simpl in Hlen; lia | exact Hp].
  - destruct k as [|k]; [simpl in Hlen; lia|].
    change (lines ((fix print_slots (k0 : nat) (l : list (option Node))
                      {struct l} : string :=
                      match k0, l with
                      | S k', o :: l' =>
                          (match o with
                           | Some child =>
                               tree_print_node child (d + INDENTATION)
                           | None => ""
                           end ++ print_slots k' l')%string
                      | _, _ => ""
                      end) k cs ++ r)%string
            = map line_of
                ((fix go (l : list (option Node)) : list (nat * Node) :=
                    match l with
                    | [] => []
                    | None :: l' => go l'
                    | Some x :: l' => levels x (d + INDENTATION) ++ go l'
                    end) cs) ++ lines r).
    apply IHcs; [intros n Hn; apply IH; now right | simpl in Hlen; lia | exact Hp].
Qed.

Lemma symbol_not_LF c : is_symbol_char c = true -> Ascii.eqb c LF = false.
Proof.
  intros H. destruct (Ascii.eqb c LF) eqn:E; [|reflexivity].
  apply Ascii.eqb_eq in E. subst c. discriminate H.
Qed.

Lemma printable_symbol c :
  is_symbol_char c = true -> printable (leaf (String c "")).
Proof.
  intros H. split; [cbv; lia|].
  cbn. destruct (Ascii.eqb c NUL); [reflexivity|].
  cbn. rewrite (symbol_not_LF c H). reflexivity.
Qed.

(** The nodes of a derivation tree are printable, and its top node is
    labelled "RE" or "RE'". *)
Lemma tree_printable s :
  (forall i j t, tree_RE s i j t ->
     Forall printable (all_nodes t) /\ content t = "RE")
  /\ (forall i j t, tree_RE_prime s i j t ->
        Forall printable (all_nodes t) /\ content t = "RE'").
Proof.
  apply tree_mutind; intros;
    repeat match goal with
      | H : _ /\ _ |- _ => destruct H
      end;
    (split; [|reflexivity]); cbn; rewrite ?app_nil_r.
  all: repeat first
      [ assumption
      | apply Forall_nil_2
      | apply Forall_cons_2;
        [first [ apply printable_symbol; assumption
               | split; [cbv; lia | reflexivity] ]|]
      | apply Forall_app_2; [assumption|] ].
Qed.

(** X12: [tree_print] writes one line for each node of the tree, in the
    order of a walk that visits a node before its children and the
    children from the lowest slot up: the line of a node is its label after
    as many dashes as the indentation the call started with plus
    [INDENTATION] for each level below the top.  (The nodes have no more
    than [MAX_CHILDS] slots and no newline in a label.) *)
Theorem tree_print_one_line_per_node t indent :
  Forall printable (all_nodes t) ->
  lines (tree_print (Some t) indent) = map line_of (levels t indent)
  /\ map snd (levels t indent) = all_nodes t
  /\ length (lines (tree_print (Some t) indent)) = length (all_nodes t).
Proof.
  intros Hp.
  assert (E : lines (tree_print (Some t) indent)
              = map line_of (levels t indent)).
  { pose proof (tree_print_node_lines t indent "" Hp) as E.
    rewrite append_empty_r, app_nil_r in E. exact E. }
  split; [exact E|]. split; [apply levels_all_nodes|].
  rewrite E, length_map, <- (levels_all_nodes t indent), length_map.
  reflexivity.
Qed.

(** [tree_print_one_line_per_node] on the tree of "ab", the root
    included, printed with indentation 2. *)
Lemma tree_print_one_line_per_node_witness :
  Forall printable (all_nodes tree_ab)
  /\ lines (tree_print (Some tree_ab) 2)
     = ["--Root"; "---RE"; "----a"; "----RE'"; "-----RE"; "------b"].
Proof.
  assert (Hp : Forall printable (all_nodes tree_ab)).
  { cbn. repeat (apply Forall_cons_2; [split; [cbv; lia | reflexivity]|]).
    apply Forall_nil_2. }
  split; [exact Hp|].
  rewrite (proj1 (tree_print_one_line_per_node tree_ab 2 Hp)).
  reflexivity.
Defined.

Lemma node_free_childs_root t :
  node_free_childs (mkNode "Root" [Some t; None; None; None])
  = (root_empty, [t]).
Proof. reflexivity. Qed.

(** X13: [main] always exits: with an argument count other than 2 it
    prints the usage message with the number of arguments found, parses
    nothing and exits with status 1; with one argument it exits with
    status 0, whatever the argument. *)
Theorem main_exits fuel argv :
  length argv <> 2 \/ enough_fuel (nth 1 argv "") <= fuel ->
  exists run,
    main fuel argv = Some run
    /\ (status run = 1%Z <-> length argv <> 2)
    /\ (status run = 0%Z <-> length argv = 2)
    /\ (length argv <> 2 ->
          stdout run
          = ("Wrong number of command-line arguments: "
             ++ print_int (Z.of_nat (length argv) - 1)
             ++ " arguments found, 1 expected" ++ newline)%string
          /\ tree_at_exit run = None
          /\ released run = []).
Proof.
  intros H. unfold main.
  destruct (Z.of_nat (length argv) =? 2)%Z eqn:E; cbn [negb].
  - apply Z.eqb_eq in E. assert (Hlen : length argv = 2) by lia.
    destruct H as [H|H]; [contradiction|].
    destruct (parse_total (nth 1 argv "") node_new fuel H) as (b & [root lost] & P).
    rewrite P. destruct (node_free_childs root) as [q freed].
    eexists. split; [reflexivity|]. cbn [status].
    repeat split; intros; solve [assumption | contradiction | discriminate].
  - apply Z.eqb_neq in E. assert (Hlen : length argv <> 2) by lia.
    eexists. split; [reflexivity|]. cbn [status stdout tree_at_exit released].
    repeat split; intros; solve [assumption | contradiction | discriminate].
Qed.

(** [main_exits] with no argument and with the argument "(a". *)
Lemma main_exits_witness :
  (exists run, main 0 ["RE_parser"] = Some run /\ status run = 1%Z
     /\ stdout run
        = ("Wrong number of command-line arguments: "
           ++ "0 arguments found, 1 expected" ++ newline)%string)
  /\ (exists run, main 5 ["RE_parser"; "(a"] = Some run /\ status run = 0%Z).
Proof.
  split.
  - destruct (main_exits 0 ["RE_parser"]) as (run & E & S1 & _ & U);
      [left; cbn; lia|].
    exists run. split; [exact E|]. split; [apply S1; cbn; lia|].
    apply U. cbn; lia.
  - destruct (main_exits 5 ["RE_parser"; "(a"]) as (run & E & _ & S0 & _);
      [right; vm_compute; lia|].
    exists run. split; [exact E|]. apply S0. reflexivity.
Defined.

(** X14: a run of [main] on one argument.  It prints "Syntax error"
    exactly when the argument is not in the language of the grammar;
    otherwise it prints a derivation tree of the whole argument, one line
    for each node, the root node left out.  In both cases every node that
    [parse] left below the root is released before the exit, every slot of
    the root is NULL again, and no node was left unattached. *)
Theorem main_output fuel argv run :
  length argv = 2 ->
  main fuel argv = Some run ->
  tree_at_exit run = Some root_empty
  /\ unattached run = []
  /\ (stdout run = ("Syntax error" ++ newline)%string
      <-> ~ lang_RE (c_string (nth 1 argv "")))
  /\ (lang_RE (c_string (nth 1 argv "")) ->
        exists t,
          tree_RE (nth 1 argv "") 0 (strlen (nth 1 argv "")) t
          /\ stdout run = tree_print (Some t) 0
          /\ lines (stdout run) = map line_of (levels t 0)
          /\ released run = node_free t)
  /\ (forall b root lost,
        parse fuel (nth 1 argv "") node_new = Some (b, (root, lost)) ->
        Permutation (released run)
          (flat_map all_nodes (attached (childs root)))).
Proof.
  intros Hlen H. unfold main in H. rewrite Hlen in H. cbn [Z.of_nat] in H.
  change (negb (Z.pos (Pos.of_succ_nat 1) =? 2)%Z) with false in H.
  cbv iota in H. set (arg := nth 1 argv "") in *.
  destruct (parse fuel arg node_new) as [[b [root lost]]|] eqn:P;
    [|discriminate H].
  pose proof (parse_decides _ _ _ _ _ P) as Hdec.
  apply parse_cases in P.
  destruct P as [(_ & -> & [= -> ->])|(o & t & _ & [= -> ->] & D & Hle & Hb)].
  - change (node_free_childs (node_init node_new "Root"))
      with (root_empty, @nil Node) in H.
    injection H as <-. cbn.
    split; [reflexivity|]. split; [reflexivity|].
    split; [split; [intros _ L; apply Hdec in L; discriminate L | reflexivity]|].
    split; [intros L; apply Hdec in L; discriminate L|].
    intros b root lost [= _ <- _]. constructor.
  - rewrite node_free_childs_root in H. injection H as <-.
    cbn [tree_at_exit unattached stdout released flat_map].
    rewrite app_nil_r.
    split; [reflexivity|]. split; [reflexivity|].
    destruct (proj1 (tree_printable arg) _ _ _ D) as [Hp Hc].
    split; [|split].
    + destruct b.
      * split; [|intros N; exfalso; apply N, Hdec; reflexivity].
        intros E. exfalso. destruct t as [c cs]. simpl in Hc. subst c.
        cbn in E. discriminate E.
      * split; [intros _ L; apply Hdec in L; discriminate L | reflexivity].
    + intros L. apply Hdec in L. rewrite Hb in L.
      apply Ascii.eqb_eq, at_terminator in L; [|exact Hle]. subst o.
      rewrite char_at_strlen in Hb. subst b.
      exists t. split; [exact D|]. split; [reflexivity|].
      split; [|reflexivity].
      pose proof (tree_print_node_lines t 0 "" Hp) as E.
      rewrite append_empty_r, app_nil_r in E. exact E.
    + intros b' root lost [= _ <- _]. cbn. rewrite app_nil_r.
      apply node_free_all_nodes.
Qed.

(** [main_output] on the argument "ab". *)
Lemma main_output_witness :
  main 5 ["RE_parser"; "ab"] = Some run_ab
  /\ lines (stdout run_ab) = ["RE"; "-a"; "-RE'"; "--RE"; "---b"]
  /\ tree_at_exit run_ab = Some root_empty
  /\ length (released run_ab) = 5.
Proof.
  assert (E : main 5 ["RE_parser"; "ab"] = Some run_ab)
    by (vm_compute; reflexivity).
  split; [exact E|].
  pose proof (main_output 5 ["RE_parser"; "ab"] run_ab eq_refl E) as (T & _).
  split; [reflexivity|]. split; [exact T | reflexivity].
Defined.
